(** * leet_browser: the hash mapper and the text transformer of [browser.py]

    A shallow embedding of the two pure cores of [src/browser.py]:

    - class [HashMapper] (lines 15-93): a fixed-size open-addressing table
      keyed by the SHA-256 digest of a word, with [insert], [insert_words],
      [find_encrypted_word] and [get_encryption_mapping];
    - method [encrypt_text_content] (lines 174-195 and, verbatim again,
      714-735): the rewriting of free text through a word mapping with
      [re.sub(r'\b[a-zA-Z]+\b', replace_word, text)].

    Around them, the text handling that feeds the two: the dictionary of
    [update_hash_settings] (lines 628-646), the mapping and the plain-text
    result of [encrypt_content] (lines 152-172), the cleaning of the page
    text in [WebContentLoader.run] (lines 133-135) and the slot count of
    [update_statistics] (line 845).

    Python values are modelled as follows.
    - [int] is [Z]; [%] and [//] are floor operations whose zero divisor
      raises [ZeroDivisionError] ([py_mod], [py_floordiv]).
    - [str] is [string]; a character stands for the code point of the same
      number.  The string methods used by the program ([lower], [upper],
      [strip], [split], [splitlines], [join], [capitalize], [isupper],
      [istitle]) and the regular
      expression classes are given for ASCII text, code points 0..127; the
      other code points are treated as caseless symbols that are no blanks,
      which Python does not do: a statement that rests on these methods
      is made for ASCII text, with [str.isascii] as a hypothesis.
    - [list] is [list] with Python's indexing ([py_getitem]: a negative
      index counts from the end, anything else out of range raises
      [IndexError]); [dict] is [gmap]; [set] is [gset].
    - an exception is a value of [exn]; a method that mutates [self] is a
      function from the object to an outcome and the object afterwards. *)

From Stdlib Require Import ZArith Ascii String List Lia.
From stdpp Require Import gmap strings list fin_maps.

Local Open Scope Z_scope.

(** ** Exceptions and outcomes *)

Inductive exn : Type :=
| ZeroDivisionError
| IndexError
| ValueError (msg : string)
| LoopBudgetExhausted.
(* [LoopBudgetExhausted] is no Python exception: it is what a [while] loop
   of the embedding answers when its iteration budget runs out.  The loops
   below are proved never to answer it. *)

Inductive result (A : Type) : Type :=
| Return (a : A)
| Raise (e : exn).
Arguments Return {A} a.
Arguments Raise {A} e.

Definition bind {A B} (r : result A) (k : A -> result B) : result B :=
  match r with
  | Return a => k a
  | Raise e => Raise e
  end.

Notation "'do' x <- r ; k" := (bind r (fun x => k))
  (at level 10, x name, r at level 100, k at level 200).

(** ** Python integers *)

Definition py_mod (a b : Z) : result Z :=
  if b =? 0 then Raise ZeroDivisionError else Return (a mod b).

Definition py_floordiv (a b : Z) : result Z :=
  if b =? 0 then Raise ZeroDivisionError else Return (a / b).

(** ** Python lists *)

Definition py_getitem {A} (l : list A) (i : Z) : result A :=
  let n := Z.of_nat (length l) in
  let j := if i <? 0 then i + n else i in
  if (0 <=? j) && (j <? n) then
    match l !! Z.to_nat j with
    | Some a => Return a
    | None => Raise IndexError
    end
  else Raise IndexError.

Definition py_setitem {A} (l : list A) (i : Z) (a : A) : result (list A) :=
  let n := Z.of_nat (length l) in
  let j := if i <? 0 then i + n else i in
  if (0 <=? j) && (j <? n) then Return (<[Z.to_nat j := a]> l)
  else Raise IndexError.

(** ** SHA-256 (FIPS 180-4), as [hashlib.sha256] computes it *)

Module hashlib.

Definition w32 (x : Z) : Z := x mod 2 ^ 32.

Definition rotr (n x : Z) : Z :=
  Z.lor (Z.shiftr x n) (w32 (Z.shiftl x (32 - n))).

Definition Ch (x y z : Z) : Z :=
  Z.lxor (Z.land x y) (Z.land (Z.lxor x 0xffffffff) z).

Definition Maj (x y z : Z) : Z :=
  Z.lxor (Z.lxor (Z.land x y) (Z.land x z)) (Z.land y z).

Definition bsig0 (x : Z) : Z := Z.lxor (Z.lxor (rotr 2 x) (rotr 13 x)) (rotr 22 x).
Definition bsig1 (x : Z) : Z := Z.lxor (Z.lxor (rotr 6 x) (rotr 11 x)) (rotr 25 x).
Definition ssig0 (x : Z) : Z := Z.lxor (Z.lxor (rotr 7 x) (rotr 18 x)) (Z.shiftr x 3).
Definition ssig1 (x : Z) : Z := Z.lxor (Z.lxor (rotr 17 x) (rotr 19 x)) (Z.shiftr x 10).

(* the largest [r] with [lo <= r < hi] and [r ^ k <= x], by bisection *)
Fixpoint root_between (k : Z) (fuel : nat) (lo hi x : Z) : Z :=
  match fuel with
  | O => lo
  | S fuel' =>
      if hi - lo <=? 1 then lo
      else
        let mid := (lo + hi) / 2 in
        if mid ^ k <=? x then root_between k fuel' mid hi x
        else root_between k fuel' lo mid x
  end.

(* the first 32 bits of the fractional part of the [k]-th root of [p] *)
Definition root_fraction (k : Z) (p : Z) : Z :=
  root_between k 256 0 (2 ^ 40) (p * 2 ^ (32 * k)) mod 2 ^ 32.

Definition primes64 : list Z :=
  [ 2; 3; 5; 7; 11; 13; 17; 19; 23; 29; 31; 37; 41; 43; 47; 53; 59; 61; 67;
    71; 73; 79; 83; 89; 97; 101; 103; 107; 109; 113; 127; 131; 137; 139; 149;
    151; 157; 163; 167; 173; 179; 181; 191; 193; 197; 199; 211; 223; 227; 229;
    233; 239; 241; 251; 257; 263; 269; 271; 277; 281; 283; 293; 307; 311 ].

(* the round constants: cube roots of the first 64 primes *)
Definition K256 : list Z :=
  Eval vm_compute in map (root_fraction 3) primes64.

(* the initial hash value: square roots of the first 8 primes *)
Definition H0 : list Z :=
  Eval vm_compute in map (root_fraction 2) (take 8 primes64).

(* big-endian bytes of [x], [n] of them *)
Fixpoint be_bytes (n : nat) (x : Z) : list Z :=
  match n with
  | O => []
  | S k => be_bytes k (x / 256) ++ [x mod 256]
  end.

Definition be_int (bs : list Z) : Z :=
  fold_left (fun acc b => acc * 256 + b) bs 0.

(* the message, the bit 1, zero bits up to 56 modulo 64 bytes, and the
   length in bits on 8 bytes *)
Definition pad (msg : list Z) : list Z :=
  let l := Z.of_nat (length msg) in
  let k := (55 - l) mod 64 in
  msg ++ [0x80] ++ repeat 0 (Z.to_nat k) ++ be_bytes 8 (8 * l).

Fixpoint groups {A} (size : nat) (count : nat) (l : list A) : list (list A) :=
  match count with
  | O => []
  | S c => take size l :: groups size c (drop size l)
  end.

Definition words_of_block (block : list Z) : list Z :=
  map be_int (groups 4 16 block).

(* W_t for t = 16..63, appended one at a time *)
Fixpoint schedule (n : nat) (w : list Z) : list Z :=
  match n with
  | O => w
  | S k =>
      let t := length w in
      let at_ (d : nat) := nth (t - d) w 0 in
      schedule k (w ++ [w32 (ssig1 (at_ 2%nat) + at_ 7%nat
                             + ssig0 (at_ 15%nat) + at_ 16%nat)])
  end.

Definition round (s : list Z) (kw : Z * Z) : list Z :=
  match s with
  | [a; b; c; d; e; f; g; h] =>
      let t1 := h + bsig1 e + Ch e f g + fst kw + snd kw in
      let t2 := bsig0 a + Maj a b c in
      [w32 (t1 + t2); a; b; c; w32 (d + t1); e; f; g]
  | _ => s
  end.

Definition compress (h : list Z) (block : list Z) : list Z :=
  let w := schedule 48 (words_of_block block) in
  let s := fold_left round (combine K256 w) h in
  map (fun p => w32 (fst p + snd p)) (combine h s).

Definition sha256_words (msg : list Z) : list Z :=
  let padded := pad msg in
  fold_left compress (groups 64 (length padded / 64)%nat padded) H0.

(* [int(hashlib.sha256(msg).hexdigest(), 16)] *)
Definition sha256_int (msg : list Z) : Z :=
  fold_left (fun acc w => acc * 2 ^ 32 + w) (sha256_words msg) 0.

End hashlib.

(** ** Python strings *)

Module str.

Definition ord (c : ascii) : Z := Z.of_N (N_of_ascii c).
Definition chr (z : Z) : ascii := ascii_of_N (Z.to_N z).

(* [s.encode('utf-8')]: one byte below 128, two bytes up to 255 *)
Definition encode_char (c : ascii) : list Z :=
  let n := ord c in
  if n <? 128 then [n] else [192 + n / 64; 128 + n mod 64].

Definition encode (s : string) : list Z :=
  flat_map encode_char (list_ascii_of_string s).

(* character classes, as Python has them on the code points 0..127.  A code
   point from 128 on is in none of them here, where Python has blanks
   (U+0085, U+00A0) and letters, with and without case (from U+00AA on):
   [isascii] below says that a text stays within the range, and the
   statements that rest on the classes are made for such texts. *)
Definition isascii_char (c : ascii) : bool := ord c <? 128.
Definition isupper_char (c : ascii) : bool := (65 <=? ord c) && (ord c <=? 90).
Definition islower_char (c : ascii) : bool := (97 <=? ord c) && (ord c <=? 122).
Definition isalpha_char (c : ascii) : bool := isupper_char c || islower_char c.
Definition isdigit_char (c : ascii) : bool := (48 <=? ord c) && (ord c <=? 57).
(* [c.isspace()]: tab, line feed, vertical tab, form feed, carriage return,
   the four separators 28..31 and the space *)
Definition isspace_char (c : ascii) : bool :=
  ((9 <=? ord c) && (ord c <=? 13)) || ((28 <=? ord c) && (ord c <=? 32)).

(* the case mappings of the code points 0..127; Python also maps U+00C0 to
   U+00DE to lower case, and U+00B5, U+00DF and U+00E0 to U+00FF to upper
   case *)
Definition lower_char (c : ascii) : ascii :=
  if isupper_char c then chr (ord c + 32) else c.
Definition upper_char (c : ascii) : ascii :=
  if islower_char c then chr (ord c - 32) else c.

Fixpoint lstrip_chars (l : list ascii) : list ascii :=
  match l with
  | [] => []
  | c :: rest => if isspace_char c then lstrip_chars rest else l
  end.

Definition rstrip_chars (l : list ascii) : list ascii :=
  rev (lstrip_chars (rev l)).

Definition strip_chars (l : list ascii) : list ascii :=
  rstrip_chars (lstrip_chars l).

(* [s.isupper()]: some cased character, and no lower-case one *)
Definition isupper_chars (l : list ascii) : bool :=
  existsb isupper_char l && forallb (fun c => negb (islower_char c)) l.

(* [s.istitle()]: an upper-case character only after a caseless one (or at
   the start), a lower-case one only after a cased one, and some cased
   character *)
Fixpoint istitle_from (previous_is_cased cased : bool) (l : list ascii) : bool :=
  match l with
  | [] => cased
  | c :: rest =>
      if isupper_char c then
        if previous_is_cased then false else istitle_from true true rest
      else if islower_char c then
        if previous_is_cased then istitle_from true true rest else false
      else istitle_from false cased rest
  end.

Definition istitle_chars (l : list ascii) : bool := istitle_from false false l.

(* [s.capitalize()]: first character upper case, the others lower case *)
Definition capitalize_chars (l : list ascii) : list ascii :=
  match l with
  | [] => []
  | c :: rest => upper_char c :: map lower_char rest
  end.

Definition lift (f : list ascii -> list ascii) (s : string) : string :=
  string_of_list_ascii (f (list_ascii_of_string s)).

Definition lower : string -> string := lift (map lower_char).
Definition upper : string -> string := lift (map upper_char).
Definition strip : string -> string := lift strip_chars.
Definition capitalize : string -> string := lift capitalize_chars.
Definition isupper (s : string) : bool := isupper_chars (list_ascii_of_string s).
(* [s.isascii()]: no code point from 128 on *)
Definition isascii (s : string) : bool :=
  forallb isascii_char (list_ascii_of_string s).
Definition istitle (s : string) : bool := istitle_chars (list_ascii_of_string s).

(* truth value of a string: the empty string is false *)
Definition truthy (s : string) : bool :=
  match s with
  | EmptyString => false
  | String _ _ => true
  end.

(* [s.split()]: the maximal runs of characters that are no blanks; [token]
   holds the characters of the run that is being read *)
Fixpoint split_chars (token : list ascii) (l : list ascii) : list (list ascii) :=
  match l with
  | [] => match token with [] => [] | _ => [token] end
  | c :: rest =>
      if isspace_char c then
        match token with
        | [] => split_chars [] rest
        | _ => token :: split_chars [] rest
        end
      else split_chars (token ++ [c]) rest
  end.

Definition split (s : string) : list string :=
  map string_of_list_ascii (split_chars [] (list_ascii_of_string s)).

(* the line boundaries of [s.splitlines()] in ASCII: line feed, vertical
   tab, form feed, carriage return, and the separators 28, 29 and 30
   (beyond ASCII, Python has U+0085, U+2028 and U+2029 as well) *)
Definition islinebreak_char (c : ascii) : bool :=
  ((10 <=? ord c) && (ord c <=? 13)) || ((28 <=? ord c) && (ord c <=? 30)).

(* [s.splitlines()]: [line] holds the characters of the line that is being
   read; [after_cr] says that the last character was a carriage return, so
   that a line feed now belongs to the same boundary.  A boundary at the
   end of the text opens no further line. *)
Fixpoint splitlines_chars (after_cr : bool) (line : list ascii)
    (l : list ascii) : list (list ascii) :=
  match l with
  | [] => match line with [] => [] | _ => [line] end
  | c :: rest =>
      if after_cr && (ord c =? 10) then splitlines_chars false line rest
      else if islinebreak_char c
      then line :: splitlines_chars (ord c =? 13) [] rest
      else splitlines_chars false (line ++ [c]) rest
  end.

(* [s.split("  ")]: the text between the occurrences of two spaces, read
   from the left; [skip] says that the character at hand is the second
   space of an occurrence *)
Fixpoint split_spaces_chars (skip : bool) (phrase : list ascii)
    (l : list ascii) : list (list ascii) :=
  match l with
  | [] => [phrase]
  | c :: rest =>
      if skip then split_spaces_chars false phrase rest
      else if (ord c =? 32)
              && match rest with d :: _ => ord d =? 32 | [] => false end
      then phrase :: split_spaces_chars true [] rest
      else split_spaces_chars false (phrase ++ [c]) rest
  end.

(* [sep.join(parts)] *)
Fixpoint join_chars (sep : list ascii) (parts : list (list ascii)) : list ascii :=
  match parts with
  | [] => []
  | [part] => part
  | part :: rest => part ++ sep ++ join_chars sep rest
  end.

End str.

(** ** class HashMapper *)

Record HashMapper : Type := mkHashMapper {
  table_size : Z;
  table : list (option string);
  word_to_index : gmap string Z;
  index_to_word : gmap Z string
}.

(** [__init__(self, table_size)]: the object after the four assignments.
    [[None] * table_size] is the empty list when [table_size <= 0]. *)
Definition __init__ (table_size : Z) : HashMapper :=
  {| table_size := table_size;
     table := replicate (Z.to_nat table_size) None;
     word_to_index := ∅;
     index_to_word := ∅ |}.

(** The call [HashMapper(table_size=n)].  [__init__] has no [raise] and none
    of its assignments can fail, so the call returns the object. *)
Definition HashMapper_call (table_size : Z) : result HashMapper :=
  Return (__init__ table_size).

Definition int_hash (word : string) : Z :=
  hashlib.sha256_int (str.encode word).

Definition _compute_hash (self : HashMapper) (word : string) : result Z :=
  py_mod (int_hash word) (table_size self).

Definition _compute_step (self : HashMapper) (word : string) : result Z :=
  do q <- py_floordiv (int_hash word) (table_size self);
  do r <- py_mod q (table_size self - 1);
  Return (1 + r).

Definition table_full_message : string :=
  "Hash table is full! Increase table_size.".

(** The [while self.table[index] is not None] loop of [insert]; the answer
    is the index of the empty slot on which the loop stops. *)
Fixpoint insert_probe (budget : nat) (self : HashMapper)
    (original_index index probe : Z) : result Z :=
  do slot <- py_getitem (table self) index;
  match slot with
  | None => Return index
  | Some _ =>
      match budget with
      | O => Raise LoopBudgetExhausted
      | S budget' =>
          let probe := probe + 1 in
          do index <- py_mod (original_index + probe) (table_size self);
          if probe >=? table_size self then Raise (ValueError table_full_message)
          else insert_probe budget' self original_index index probe
      end
  end.

Definition insert_budget (self : HashMapper) : nat :=
  S (Z.to_nat (table_size self)).

Definition insert (word : string) (self : HashMapper) : result unit * HashMapper :=
  match word_to_index self !! word with
  | Some _ => (Return tt, self)
  | None =>
      let found :=
        do index <- _compute_hash self word;
        do index <- insert_probe (insert_budget self) self index index 0;
        do table' <- py_setitem (table self) index (Some word);
        Return (index, table') in
      match found with
      | Raise e => (Raise e, self)
      | Return (index, table') =>
          (Return tt,
           {| table_size := table_size self;
              table := table';
              word_to_index := <[word := index]> (word_to_index self);
              index_to_word := <[index := word]> (index_to_word self) |})
      end
  end.

(** [insert_words]: an exception of [insert] ends the loop and propagates *)
Fixpoint insert_words (words : list string) (self : HashMapper)
    : result unit * HashMapper :=
  match words with
  | [] => (Return tt, self)
  | word :: rest =>
      if str.truthy word && str.truthy (str.strip word) then
        match insert (str.lower (str.strip word)) self with
        | (Return _, self') => insert_words rest self'
        | (Raise e, self') => (Raise e, self')
        end
      else insert_words rest self
  end.

(* the test [table[probe_index] is not None and table[probe_index] != word] *)
Definition is_substitute (slot : option string) (word : string) : bool :=
  match slot with
  | None => false
  | Some stored => if decide (stored = word) then false else true
  end.

(** The [while attempts < self.table_size] loop of [find_encrypted_word] *)
Fixpoint find_loop (budget : nat) (self : HashMapper) (word : string)
    (step start_probe probe_index attempts : Z) : result (option string) :=
  if attempts <? table_size self then
    match budget with
    | O => Raise LoopBudgetExhausted
    | S budget' =>
        do slot <- py_getitem (table self) probe_index;
        if is_substitute slot word then Return slot
        else
          do probe_index <- py_mod (probe_index + step) (table_size self);
          let attempts := attempts + 1 in
          if probe_index =? start_probe then Return None
          else find_loop budget' self word step start_probe probe_index attempts
    end
  else Return None.

Definition find_encrypted_word (word : string) (self : HashMapper)
    : result (option string) :=
  let word := str.strip (str.lower word) in
  match word_to_index self !! word with
  | None => Return None
  | Some _ =>
      do hash_index <- _compute_hash self word;
      do step <- _compute_step self word;
      do probe_index <- py_mod (hash_index + step) (table_size self);
      find_loop (Z.to_nat (table_size self)) self word step probe_index probe_index 0
  end.

(* [if encrypted:] holds for a string that is not empty *)
Definition found_substitute (encrypted : option string) : option string :=
  match encrypted with
  | Some e => if str.truthy e then Some e else None
  | None => None
  end.

Fixpoint mapping_loop (self : HashMapper) (words : list string)
    (mapping : gmap string string) : result (gmap string string) :=
  match words with
  | [] => Return mapping
  | word :: rest =>
      do encrypted <- find_encrypted_word word self;
      mapping_loop self rest
        match found_substitute encrypted with
        | Some e => <[str.lower word := e]> mapping
        | None => mapping
        end
  end.

(** [get_encryption_mapping]: the loop runs over [set(words)], here in the
    order of [elements]; [mapping_loop_order] shows that the order does not
    matter. *)
Definition get_encryption_mapping (words : list string) (self : HashMapper)
    : result (gmap string string) :=
  mapping_loop self (elements (list_to_set words : gset string)) ∅.

(* [sum(1 for slot in self.table if slot is not None)], update_statistics *)
Definition filled_slots (self : HashMapper) : nat :=
  length (filter is_Some (table self)).

(** A caller that makes the calls [insert(w)] for [w] in [words], one after
    the other, going on after a call that raised. *)
Definition insert_all (words : list string) (self : HashMapper) : HashMapper :=
  fold_left (fun s w => snd (insert w s)) words self.

Fixpoint insert_outcomes (words : list string) (self : HashMapper)
    : list (result unit) :=
  match words with
  | [] => []
  | w :: rest => fst (insert w self) :: insert_outcomes rest (snd (insert w self))
  end.

(** ** The regular expression [\b[a-zA-Z]+\b] and [re.sub] *)

Module re.

(* [\w] on ASCII text: a letter, a digit or the underscore (beyond ASCII,
   Python's [\w] and so its [\b] also know the letters and digits from
   U+00AA on) *)
Definition is_word_char (c : ascii) : bool :=
  str.isalpha_char c || str.isdigit_char c || (str.ord c =? 95).

Definition is_word (c : option ascii) : bool :=
  match c with
  | Some c => is_word_char c
  | None => false
  end.

(* [\b] between two neighbours ([None] past either end of the text): a word
   character on exactly one side *)
Definition boundary (before after : option ascii) : bool :=
  xorb (is_word before) (is_word after).

(* the longest prefix that [[a-zA-Z]+] can take *)
Fixpoint alpha_run (text : list ascii) : list ascii :=
  match text with
  | [] => []
  | c :: rest => if str.isalpha_char c then c :: alpha_run rest else []
  end.

(* [+] is greedy: the longest run first, then one character less at a time,
   down to one character, until the closing [\b] holds *)
Fixpoint close_match (len : nat) (text : list ascii) : option nat :=
  match len with
  | O => None
  | S shorter =>
      if boundary (text !! shorter) (text !! len) then Some len
      else close_match shorter text
  end.

(* the length of the match that starts at the head of [text], if any;
   [before] is the character in front of it *)
Definition match_here (before : option ascii) (text : list ascii) : option nat :=
  if boundary before (head text) then close_match (length (alpha_run text)) text
  else None.

(* the scan of [re.sub]: left to right, matches do not overlap; [skip]
   counts the characters of the last match that are still ahead *)
Fixpoint sub_from (repl : list ascii -> list ascii) (before : option ascii)
    (skip : nat) (text : list ascii) : list ascii :=
  match text with
  | [] => []
  | c :: rest =>
      match skip with
      | S skip' => sub_from repl (Some c) skip' rest
      | O =>
          match match_here before text with
          | Some len => repl (take len text) ++ sub_from repl (Some c) (len - 1) rest
          | None => c :: sub_from repl (Some c) 0 rest
          end
      end
  end.

(* [re.sub(r'\b[a-zA-Z]+\b', repl, text)] with a function [repl] *)
Definition sub (repl : string -> string) (text : string) : string :=
  string_of_list_ascii
    (sub_from (fun m => list_ascii_of_string (repl (string_of_list_ascii m)))
       None 0 (list_ascii_of_string text)).

(* the scan of [re.findall], the same as that of [re.sub]: the matches,
   left to right *)
Fixpoint findall_from (before : option ascii) (skip : nat) (text : list ascii)
    : list (list ascii) :=
  match text with
  | [] => []
  | c :: rest =>
      match skip with
      | S skip' => findall_from (Some c) skip' rest
      | O =>
          match match_here before text with
          | Some len => take len text :: findall_from (Some c) (len - 1) rest
          | None => findall_from (Some c) 0 rest
          end
      end
  end.

(* [re.findall(r'\b[a-zA-Z]+\b', text)] *)
Definition findall (text : string) : list string :=
  map string_of_list_ascii (findall_from None 0 (list_ascii_of_string text)).

End re.

(** ** encrypt_text_content *)

Definition replace_word (encryption_mapping : gmap string string) (word : string)
    : string :=
  let word_lower := str.lower word in
  match encryption_mapping !! word_lower with
  | Some encrypted =>
      if str.isupper word then str.upper encrypted
      else if str.istitle word then str.capitalize encrypted
      else encrypted
  | None => word
  end.

Definition encrypt_text_content (text : string)
    (encryption_mapping : gmap string string) : string :=
  if negb (str.truthy text) || negb (str.truthy (str.strip text)) then text
  else re.sub (replace_word encryption_mapping) text.

(** ** The table invariant *)

(** The slot array has [table_size] slots, [word_to_index] holds exactly the
    occupied slots, and [index_to_word] is its inverse. *)
Record wf (s : HashMapper) : Prop := {
  wf_length : length (table s) = Z.to_nat (table_size s);
  wf_word_to_index : ∀ w i,
    word_to_index s !! w = Some i ↔
    0 ≤ i ∧ table s !! Z.to_nat i = Some (Some w);
  wf_index_to_word : ∀ i w,
    index_to_word s !! i = Some w ↔ word_to_index s !! w = Some i
}.

(* the object after a successful [insert] that wrote [w] at slot [i] *)
Definition stored_at (w : string) (i : Z) (s : HashMapper) : HashMapper :=
  {| table_size := table_size s;
     table := <[Z.to_nat i := Some w]> (table s);
     word_to_index := <[w := i]> (word_to_index s);
     index_to_word := <[i := w]> (index_to_word s) |}.

(** ** The walk of a lookup, in the words of the specification *)

Definition primary_index (capacity : Z) (w : string) : Z :=
  int_hash w mod capacity.

Definition probe_step (capacity : Z) (w : string) : Z :=
  1 + (int_hash w / capacity) mod (capacity - 1).

(* position [k] of a walk that starts at [start] and advances by [step]
   modulo the capacity *)
Fixpoint walk (capacity start step : Z) (k : nat) : Z :=
  match k with
  | O => start
  | S k' => (walk capacity start step k' + step) mod capacity
  end.

(* the walk of the word [w]: it starts at
   [(primary_index + step) mod capacity] *)
Definition walk_of (capacity : Z) (w : string) (k : nat) : Z :=
  walk capacity
    ((primary_index capacity w + probe_step capacity w) mod capacity)
    (probe_step capacity w) k.

(* position [k] is reached: within [capacity] steps, and before the walk
   is back at its starting index *)
Definition reached (capacity : Z) (pos : nat → Z) (k : nat) : Prop :=
  Z.of_nat k < capacity ∧ ∀ j, (0 < j ≤ k)%nat → pos j ≠ pos 0%nat.

(* the walk goes on over slot [i]: it is empty or holds [w] itself *)
Definition passed (s : HashMapper) (w : string) (i : Z) : Prop :=
  table s !! Z.to_nat i = Some None ∨ table s !! Z.to_nat i = Some (Some w).

(* [r] is the first occupied slot with a word other than [w] on the walk
   [pos], or [None] when the walk has none *)
Definition first_on_walk (s : HashMapper) (w : string) (pos : nat → Z)
    (r : option string) : Prop :=
  match r with
  | Some v =>
      v ≠ w ∧
      ∃ k, reached (table_size s) pos k ∧
           table s !! Z.to_nat (pos k) = Some (Some v) ∧
           ∀ j, (j < k)%nat → passed s w (pos j)
  | None => ∀ k, reached (table_size s) pos k → passed s w (pos k)
  end.

(* the call [insert(w)] was made in the sequence [ws] and returned *)
Definition inserted (w : string) (ws : list string) (s0 : HashMapper) : Prop :=
  ∃ before after,
    ws = before ++ w :: after ∧ (insert w (insert_all before s0)).1 = Return tt.

(* [w] has an upper-case letter *)
Definition has_upper (w : string) : bool :=
  existsb str.isupper_char (list_ascii_of_string w).

(* what the loop of [get_encryption_mapping] records for [word]: the
   result of the lookup when it is a string that is not empty *)
Definition substitute (s : HashMapper) (word : string) : option string :=
  match find_encrypted_word word s with
  | Return r => found_substitute r
  | Raise _ => None
  end.

(** ** The text transformer, in the words of the specification *)

Definition chars (s : string) : list ascii := list_ascii_of_string s.

(* the character in front of what follows [l], which itself follows a text
   that ends with [before] *)
Definition last_or (before : option ascii) (l : list ascii) : option ascii :=
  match last l with
  | Some c => Some c
  | None => before
  end.

(* a run: one alphabetic character at least, and no other *)
Definition alpha_word (run : string) : Prop :=
  chars run ≠ [] ∧ Forall (λ c, str.isalpha_char c = true) (chars run).

(* [l] does not end, respectively start, with a character of class [p] *)
Definition ends_without (p : ascii → bool) (l : list ascii) : Prop :=
  match last l with
  | Some c => p c = false
  | None => True
  end.

Definition starts_without (p : ascii → bool) (l : list ascii) : Prop :=
  match head l with
  | Some c => p c = false
  | None => True
  end.

Definition upper_first (v : string) : string :=
  match v with
  | EmptyString => EmptyString
  | String c rest => String (str.upper_char c) rest
  end.

(* the case pattern of the run, put on the substitute [v]: all upper case
   for a run all in upper case; first character upper case for a run whose
   first character is upper case and the others lower case; lower case
   otherwise *)
Definition case_transfer (run v : string) : string :=
  if forallb str.isupper_char (chars run) then str.upper v
  else
    match chars run with
    | c :: rest =>
        if str.isupper_char c && forallb str.islower_char rest
        then upper_first v
        else str.lower v
    | [] => str.lower v
    end.

(* the function that [re.sub] calls on a match, on lists of characters *)
Definition repl_chars (m : gmap string string) (run : list ascii) : list ascii :=
  chars (replace_word m (string_of_list_ascii run)).

(** ** Further functions of the source *)

(* the arguments of the calls of [insert] that the loop of [insert_words]
   makes when no call raises *)
Fixpoint dictionary_words (words : list string) : list string :=
  match words with
  | [] => []
  | word :: rest =>
      if str.truthy word && str.truthy (str.strip word)
      then str.lower (str.strip word) :: dictionary_words rest
      else dictionary_words rest
  end.

(* the three counts of update_statistics agree *)
Definition counted (s : HashMapper) : Prop :=
  filled_slots s = size (word_to_index s) ∧
  size (word_to_index s) = size (index_to_word s).

(** [encrypt_content(self, soup, plain_text)], its second result
    [processed_text]: the words of the lower-cased text, the mapping for
    them, and the text rewritten with that mapping.  The first result, the
    document that BeautifulSoup rebuilds, comes from [encrypt_text_content]
    with the same mapping on each text node; it is not embedded. *)
Definition encrypt_content_text (hash_mapper : HashMapper) (plain_text : string)
    : result string :=
  let words := re.findall (str.lower plain_text) in
  do encryption_mapping <- get_encryption_mapping words hash_mapper;
  Return (encrypt_text_content plain_text encryption_mapping).

(** [update_hash_settings]: the [hash_mapper] that it leaves for the value
    of the spin box and the text of the dictionary field.  The new mapper is
    assigned before the words are inserted and an exception of
    [insert_words] is caught, so the mapper stays as the loop left it. *)
Definition update_hash_settings (table_size : Z) (dictionary_text : string)
    : HashMapper :=
  (insert_words (str.split dictionary_text) (__init__ table_size)).2.

(** The cleaning of the page text in [WebContentLoader.run]:
    [lines = (line.strip() for line in plain_text.splitlines())],
    [chunks = (phrase.strip() for line in lines for phrase in line.split("  "))],
    [clean_text = '\n'.join(chunk for chunk in chunks if chunk)],
    on lists of characters. *)
Definition clean_chars (plain_text : list ascii) : list ascii :=
  let lines := map str.strip_chars (str.splitlines_chars false [] plain_text) in
  let chunks :=
    flat_map (λ line, map str.strip_chars (str.split_spaces_chars false [] line))
      lines in
  str.join_chars ["010"%char]
    (filter (λ chunk, chunk ≠ []) chunks).

Definition clean_text (plain_text : string) : string :=
  string_of_list_ascii (clean_chars (list_ascii_of_string plain_text)).

(* no two spaces in a row *)
Fixpoint single_spaced (l : list ascii) : bool :=
  match l with
  | [] => true
  | c :: rest =>
      negb ((str.ord c =? 32)
            && match rest with d :: _ => str.ord d =? 32 | [] => false end)
      && single_spaced rest
  end.

(* a tidy line: not empty, no line boundary inside, nothing for [strip] to
   remove, and no two spaces in a row *)
Definition tidy (line : list ascii) : Prop :=
  line ≠ []
  ∧ Forall (λ c, str.islinebreak_char c = false) line
  ∧ str.strip_chars line = line
  ∧ single_spaced line = true.

(** * Properties *)

Arguments int_hash : simpl never.

(** ** Python integers and lists *)

Section python.
Context {A : Type}.
Implicit Types (l : list A) (i : Z).

Lemma py_mod_Return a b : b ≠ 0 → py_mod a b = Return (a mod b).
Proof. intros Hb. unfold py_mod. destruct (Z.eqb_spec b 0); [lia | done]. Qed.

Lemma py_mod_inv a b r : py_mod a b = Return r → b ≠ 0 ∧ r = a mod b.
Proof. unfold py_mod. destruct (Z.eqb_spec b 0); [done | naive_solver]. Qed.

Lemma py_floordiv_Return a b : b ≠ 0 → py_floordiv a b = Return (a / b).
Proof. intros Hb. unfold py_floordiv. destruct (Z.eqb_spec b 0); [lia | done]. Qed.

Lemma py_getitem_Return l i a :
  0 ≤ i → l !! Z.to_nat i = Some a → py_getitem l i = Return a.
Proof.
  intros Hi Hl. unfold py_getitem.
  apply lookup_lt_Some in Hl as Hlt.
  destruct (Z.ltb_spec i 0); [lia |].
  destruct (Z.leb_spec 0 i); [| lia].
  destruct (Z.ltb_spec i (Z.of_nat (length l))); [| lia].
  simpl. by rewrite Hl.
Qed.

Lemma py_getitem_inv l i a :
  0 ≤ i → py_getitem l i = Return a → l !! Z.to_nat i = Some a.
Proof.
  intros Hi. unfold py_getitem.
  destruct (Z.ltb_spec i 0); [lia |].
  destruct (_ && _); [| done].
  destruct (l !! Z.to_nat i); naive_solver.
Qed.

Lemma py_getitem_nil i : py_getitem (@nil A) i = Raise IndexError.
Proof.
  unfold py_getitem. simpl.
  destruct (Z.ltb_spec i 0).
  - by destruct (_ && _).
  - destruct (Z.ltb_spec i (Z.of_nat 0)); [lia |].
    by rewrite andb_false_r.
Qed.

Lemma py_setitem_Return l i a :
  0 ≤ i → (Z.to_nat i < length l)%nat →
  py_setitem l i a = Return (<[Z.to_nat i := a]> l).
Proof.
  intros Hi Hlt. unfold py_setitem.
  destruct (Z.ltb_spec i 0); [lia |].
  destruct (Z.leb_spec 0 i); [| lia].
  destruct (Z.ltb_spec i (Z.of_nat (length l))); [done | lia].
Qed.
End python.

(** ** insert *)

Section insert.
Implicit Types (s : HashMapper) (w : string) (i o p : Z) (b : nat).

Lemma wf_init n : wf (__init__ n).
Proof.
  split; simpl.
  - by rewrite length_replicate.
  - intros w i. rewrite lookup_empty. split; [done |].
    intros [_ [? _]%lookup_replicate]. done.
  - intros i w. by rewrite !lookup_empty.
Qed.

Lemma insert_probe_nil b s o i p :
  table s = [] → insert_probe b s o i p = Raise IndexError.
Proof. intros Hnil. destruct b; simpl; by rewrite Hnil, py_getitem_nil. Qed.

(* the loop answers an empty slot of the table *)
Lemma insert_probe_inv b s o idx p i :
  0 ≤ idx < table_size s →
  insert_probe b s o idx p = Return i →
  0 ≤ i < table_size s ∧ table s !! Z.to_nat i = Some None.
Proof.
  revert idx p. induction b as [| b IH]; intros idx p Hidx; simpl.
  - destruct (py_getitem (table s) idx) as [[v |] |] eqn:Hg; simpl; try done.
    intros [= <-]. split; [done |]. apply py_getitem_inv; [lia | done].
  - destruct (py_getitem (table s) idx) as [[v |] |] eqn:Hg; simpl; try done.
    + rewrite py_mod_Return by lia. simpl.
      destruct (p + 1 >=? table_size s); [done |].
      apply IH. apply Z.mod_pos_bound. lia.
    + intros [= <-]. split; [done |]. apply py_getitem_inv; [lia | done].
Qed.

(* what a call of insert can do: nothing, or fill one empty slot *)
Lemma insert_inv w s r s' :
  wf s → insert w s = (r, s') →
  s' = s ∨
  (r = Return tt ∧ word_to_index s !! w = None ∧
   ∃ i, 0 ≤ i < table_size s ∧ table s !! Z.to_nat i = Some None ∧
        s' = stored_at w i s).
Proof.
  intros Hwf. unfold insert.
  destruct (word_to_index s !! w) eqn:Hw; [intros [= <- <-]; by left |].
  unfold _compute_hash.
  destruct (py_mod (int_hash w) (table_size s)) as [o |] eqn:Ho; cbn [bind];
    [| intros [= <- <-]; by left].
  apply py_mod_inv in Ho as [Hn ->].
  destruct (insert_probe _ s _ _ 0) as [i |] eqn:Hp; cbn [bind];
    [| intros [= <- <-]; by left].
  assert (0 < table_size s) as Hpos.
  { destruct (Z.lt_trichotomy (table_size s) 0) as [Hneg | [? | ?]]; [| lia | done].
    rewrite insert_probe_nil in Hp; [done |].
    apply length_zero_iff_nil. rewrite (wf_length s Hwf). lia. }
  apply insert_probe_inv in Hp as [Hi Hnone]; [| by apply Z.mod_pos_bound].
  rewrite py_setitem_Return; [| lia | by eapply lookup_lt_Some].
  cbn [bind]. intros [= <- <-]. right. eauto 10.
Qed.

Lemma wf_stored_at w i s :
  wf s → word_to_index s !! w = None → 0 ≤ i →
  table s !! Z.to_nat i = Some None → wf (stored_at w i s).
Proof.
  intros [Hlen Hw2i Hi2w] Hw Hi Hnone.
  assert (index_to_word s !! i = None) as Hfree.
  { destruct (index_to_word s !! i) as [v |] eqn:Hv; [| done].
    apply Hi2w, Hw2i in Hv as [_ Hv]. congruence. }
  split; simpl.
  - by rewrite length_insert.
  - intros w' i'. destruct (decide (w = w')) as [<- | Hne].
    + rewrite lookup_insert_eq. split.
      * intros [= <-]. split; [done |].
        apply list_lookup_insert_eq. by eapply lookup_lt_Some.
      * intros [Hi' Hl]. destruct (decide (Z.to_nat i = Z.to_nat i')) as [Heq | Hn].
        -- f_equal. lia.
        -- rewrite list_lookup_insert_ne in Hl by done.
           assert (word_to_index s !! w = Some i') by by apply Hw2i.
           congruence.
    + rewrite lookup_insert_ne by done. rewrite Hw2i.
      destruct (decide (Z.to_nat i = Z.to_nat i')) as [Heq | Hn].
      * rewrite <- Heq. rewrite list_lookup_insert_eq by by eapply lookup_lt_Some.
        rewrite Hnone. split; intros [_ ?]; simplify_eq.
      * by rewrite list_lookup_insert_ne.
  - intros i' w'. destruct (decide (i = i')) as [<- | Hne].
    + rewrite lookup_insert_eq. destruct (decide (w = w')) as [<- | Hnw].
      * by rewrite lookup_insert_eq.
      * rewrite lookup_insert_ne by done. split; [congruence |].
        intros [_ Hl]%Hw2i. congruence.
    + rewrite lookup_insert_ne by done. destruct (decide (w = w')) as [<- | Hnw].
      * rewrite lookup_insert_eq. split; [| congruence].
        intros Hv%Hi2w. congruence.
      * rewrite lookup_insert_ne by done. apply Hi2w.
Qed.

Lemma wf_insert w s : wf s → wf (insert w s).2.
Proof.
  intros Hwf. destruct (insert w s) as [r s'] eqn:Hins.
  destruct (insert_inv _ _ _ _ Hwf Hins) as [-> | (_ & Hw & i & Hi & Hnone & ->)];
    [done |].
  simpl. apply wf_stored_at; [done | done | lia | done].
Qed.

Lemma wf_insert_all ws s : wf s → wf (insert_all ws s).
Proof.
  revert s. induction ws as [| w ws IH]; intros s Hwf; [done |].
  simpl. apply IH. by apply wf_insert.
Qed.

Lemma table_size_insert w s : wf s → table_size (insert w s).2 = table_size s.
Proof.
  intros Hwf. destruct (insert w s) as [r s'] eqn:Hins.
  by destruct (insert_inv _ _ _ _ Hwf Hins) as [-> | (_ & _ & i & _ & _ & ->)].
Qed.

Lemma table_size_insert_all ws s :
  wf s → table_size (insert_all ws s) = table_size s.
Proof.
  revert s. induction ws as [| w ws IH]; intros s Hwf; [done |].
  simpl. rewrite IH by by apply wf_insert. by apply table_size_insert.
Qed.

(* an occupied slot keeps its word *)
Lemma insert_keeps_slot w s j v :
  wf s → table s !! j = Some (Some v) → table (insert w s).2 !! j = Some (Some v).
Proof.
  intros Hwf Hj. destruct (insert w s) as [r s'] eqn:Hins.
  destruct (insert_inv _ _ _ _ Hwf Hins) as [-> | (_ & _ & i & _ & Hnone & ->)];
    [done |].
  simpl. rewrite list_lookup_insert_ne; [done |]. congruence.
Qed.

Lemma insert_all_keeps_slot ws s j v :
  wf s → table s !! j = Some (Some v) →
  table (insert_all ws s) !! j = Some (Some v).
Proof.
  revert s. induction ws as [| w ws IH]; intros s Hwf Hj; [done |].
  simpl. apply IH; [by apply wf_insert | by apply insert_keeps_slot].
Qed.

(** *** Occupancy *)

Lemma filled_list_insert (l : list (option string)) j w :
  l !! j = Some None →
  length (filter is_Some (<[j := Some w]> l)) = S (length (filter is_Some l)).
Proof.
  revert j. induction l as [| x l IH]; intros [| j] Hj; simplify_eq/=.
  - by rewrite !filter_cons.
  - rewrite !filter_cons. destruct (decide (is_Some x)); simpl; by rewrite IH.
Qed.

Lemma filled_lt_empty (l : list (option string)) :
  (length (filter is_Some l) < length l)%nat → ∃ j, l !! j = Some None.
Proof.
  induction l as [| [v |] l IH]; simpl; intros Hlt;
    rewrite ?filter_cons in Hlt; simpl in Hlt.
  - lia.
  - destruct IH as [j Hj]; [lia |]. by exists (S j).
  - by exists 0%nat.
Qed.

Lemma filled_all_occupied (l : list (option string)) j :
  length (filter is_Some l) = length l → (j < length l)%nat →
  ∃ v, l !! j = Some (Some v).
Proof.
  revert j. induction l as [| [v |] l IH]; intros j; simpl; intros Heq Hj;
    rewrite ?filter_cons in Heq; simpl in Heq.
  - lia.
  - destruct j as [| j]; [by exists v |]. apply IH; lia.
  - pose proof (length_filter is_Some l). lia.
Qed.

Lemma filled_stored_at w i s :
  table s !! Z.to_nat i = Some None →
  filled_slots (stored_at w i s) = S (filled_slots s).
Proof. apply filled_list_insert. Qed.

(** *** The probe loop *)

(* when every probed slot is occupied the loop raises *)
Lemma insert_probe_full b s o p :
  0 < table_size s →
  (∀ k, 0 ≤ k < table_size s →
        ∃ v, table s !! Z.to_nat ((o + k) mod table_size s) = Some (Some v)) →
  0 ≤ p < table_size s → (Z.to_nat (table_size s - p) ≤ b)%nat →
  insert_probe b s o ((o + p) mod table_size s) p
  = Raise (ValueError table_full_message).
Proof.
  intros Hn Hfull. revert p. induction b as [| b IH]; intros p Hp Hb; [lia |].
  destruct (Hfull p Hp) as [v Hv]. simpl.
  rewrite (py_getitem_Return _ _ (Some v)); [| by apply Z.mod_pos_bound | done].
  simpl. rewrite py_mod_Return by lia. simpl.
  destruct (Z.geb_spec (p + 1) (table_size s)); [done |].
  apply IH; lia.
Qed.

(* when a slot is empty the loop answers *)
Lemma insert_probe_finds b s o p k :
  wf s → 0 ≤ p ≤ k → k < table_size s →
  table s !! Z.to_nat ((o + k) mod table_size s) = Some None →
  (Z.to_nat (table_size s - p) ≤ b)%nat →
  ∃ i, insert_probe b s o ((o + p) mod table_size s) p = Return i.
Proof.
  intros Hwf. revert p. induction b as [| b IH]; intros p Hp Hk Hnone Hb; [lia |].
  assert (0 ≤ (o + p) mod table_size s < table_size s) as Hr
    by (apply Z.mod_pos_bound; lia).
  destruct (lookup_lt_is_Some_2 (table s) (Z.to_nat ((o + p) mod table_size s)))
    as [x Hx]; [rewrite (wf_length s Hwf); lia |].
  simpl. rewrite (py_getitem_Return _ _ x); [| lia | done].
  destruct x as [v |]; simpl; [| eauto].
  assert (p ≠ k) by (intros ->; congruence).
  rewrite py_mod_Return by lia. simpl.
  destruct (Z.geb_spec (p + 1) (table_size s)); [lia |].
  apply IH; [lia | done | done | lia].
Qed.

Lemma insert_full w s :
  1 ≤ table_size s → word_to_index s !! w = None →
  (∀ k, 0 ≤ k < table_size s →
        ∃ v, table s !! Z.to_nat ((int_hash w mod table_size s + k)
                                  mod table_size s) = Some (Some v)) →
  insert w s = (Raise (ValueError table_full_message), s).
Proof.
  intros Hn Hw Hfull. unfold insert, _compute_hash. rewrite Hw.
  rewrite py_mod_Return by lia. cbn [bind].
  pose proof (insert_probe_full (insert_budget s) s
                (int_hash w mod table_size s) 0) as Hp.
  rewrite Z.add_0_r, Z.mod_mod in Hp by lia.
  rewrite Hp; [done | lia | done | lia | unfold insert_budget; lia].
Qed.

Lemma insert_Return w s :
  wf s → 1 ≤ table_size s → word_to_index s !! w = None →
  (∃ j, table s !! j = Some None) →
  ∃ i, 0 ≤ i ∧ table s !! Z.to_nat i = Some None ∧
       insert w s = (Return tt, stored_at w i s).
Proof.
  intros Hwf Hn Hw [j Hj].
  set (o := int_hash w mod table_size s).
  set (k := (Z.of_nat j - o) mod table_size s).
  assert (0 ≤ k < table_size s) by (apply Z.mod_pos_bound; lia).
  assert (Z.of_nat j < table_size s).
  { apply lookup_lt_Some in Hj. rewrite (wf_length s Hwf) in Hj. lia. }
  assert ((o + k) mod table_size s = Z.of_nat j) as Hok.
  { unfold k. rewrite Zplus_mod_idemp_r.
    replace (o + (Z.of_nat j - o)) with (Z.of_nat j) by lia.
    apply Z.mod_small. lia. }
  destruct (insert_probe_finds (insert_budget s) s o 0 k Hwf) as [i Hi];
    [lia | lia | by rewrite Hok, Nat2Z.id | unfold insert_budget; lia |].
  assert (0 ≤ o < table_size s) by (apply Z.mod_pos_bound; lia).
  rewrite Z.add_0_r, (Z.mod_small o) in Hi by done.
  destruct (insert w s) as [r s'] eqn:Hins.
  pose proof Hins as Hins'. unfold insert, _compute_hash in Hins'.
  rewrite Hw, py_mod_Return in Hins' by lia. cbn [bind] in Hins'.
  fold o in Hins'. rewrite Hi in Hins'. cbn [bind] in Hins'.
  apply insert_probe_inv in Hi as [Hir Hie]; [| done].
  rewrite py_setitem_Return in Hins'; [| lia | by eapply lookup_lt_Some].
  cbn [bind] in Hins'. injection Hins' as <- <-.
  exists i. split; [lia | done].
Qed.

(** *** Sequences of calls *)

Lemma insert_all_app ws1 ws2 s :
  insert_all (ws1 ++ ws2) s = insert_all ws2 (insert_all ws1 s).
Proof. apply fold_left_app. Qed.

Lemma insert_outcomes_app ws1 ws2 s :
  insert_outcomes (ws1 ++ ws2) s
  = insert_outcomes ws1 s ++ insert_outcomes ws2 (insert_all ws1 s).
Proof.
  revert s. induction ws1 as [| w ws1 IH]; intros s; [done |].
  simpl. by rewrite IH.
Qed.

(* the words of [word_to_index] are among the arguments of the calls *)
Lemma word_to_index_insert_all ws s w i :
  wf s → word_to_index (insert_all ws s) !! w = Some i →
  word_to_index s !! w = Some i ∨ w ∈ ws.
Proof.
  revert s. induction ws as [| x ws IH]; intros s Hwf; [by left |].
  simpl. intros [Hx | Hin]%IH; [| right; by constructor | by apply wf_insert].
  destruct (insert x s) as [r s'] eqn:Hins.
  destruct (insert_inv _ _ _ _ Hwf Hins) as [-> | (_ & _ & j & _ & _ & ->)];
    [by left |].
  simpl in Hx. destruct (decide (x = w)) as [-> | Hne].
  - right. by constructor.
  - left. by rewrite lookup_insert_ne in Hx.
Qed.

(* distinct new words all go in while there is room *)
Lemma insert_all_distinct ws s :
  wf s → 1 ≤ table_size s → NoDup ws →
  (∀ w, w ∈ ws → word_to_index s !! w = None) →
  (filled_slots s + length ws ≤ Z.to_nat (table_size s))%nat →
  insert_outcomes ws s = replicate (length ws) (Return tt) ∧
  filled_slots (insert_all ws s) = (filled_slots s + length ws)%nat.
Proof.
  revert s. induction ws as [| w ws IH]; intros s Hwf Hn Hnd Hnew Hroom.
  { simpl. split; [done | lia]. }
  apply NoDup_cons in Hnd as [Hw Hnd]. simpl in Hroom.
  destruct (insert_Return w s Hwf Hn) as (i & Hi & Hnone & Hins).
  { apply Hnew. by constructor. }
  { apply filled_lt_empty. unfold filled_slots in Hroom.
    rewrite (wf_length s Hwf). lia. }
  simpl. rewrite Hins. simpl.
  destruct (IH (stored_at w i s)) as [Hout Hfill].
  - apply wf_stored_at; [done | apply Hnew; by constructor | done | done].
  - done.
  - done.
  - intros x Hx. simpl. rewrite lookup_insert_ne by (by intros ->).
    apply Hnew. by constructor.
  - rewrite filled_stored_at by done. simpl. lia.
  - rewrite Hout, Hfill, filled_stored_at by done. split; [done | lia].
Qed.
End insert.

(** ** The claims on insert *)

Section insert_claims.

Lemma filled_slots_init n : filled_slots (__init__ n) = 0%nat.
Proof.
  unfold filled_slots. simpl.
  induction (Z.to_nat n) as [| k IH]; [done |].
  simpl. by rewrite filter_cons.
Qed.

(** C4.  A call of [insert] that finds every probed slot occupied raises
    the table-full [ValueError] and leaves the object as it was; and when
    [capacity + 1] distinct words are inserted into a fresh table of
    [capacity >= 1] slots, the first [capacity] calls return, the last one
    raises that error, and [capacity] slots are filled afterwards. *)
Theorem table_full_error :
  (∀ s w,
     1 ≤ table_size s → word_to_index s !! w = None →
     (∀ k, 0 ≤ k < table_size s →
           ∃ v, table s !! Z.to_nat ((int_hash w mod table_size s + k)
                                     mod table_size s) = Some (Some v)) →
     insert w s = (Raise (ValueError table_full_message), s)) ∧
  (∀ n ws,
     1 ≤ n → NoDup ws → length ws = S (Z.to_nat n) →
     insert_outcomes ws (__init__ n)
     = replicate (Z.to_nat n) (Return tt)
       ++ [Raise (ValueError table_full_message)] ∧
     filled_slots (insert_all ws (__init__ n)) = Z.to_nat n).
Proof.
  split; [intros s w; apply insert_full |].
  intros n ws Hn Hnd Hlen.
  destruct ws as [| w ws _] using rev_ind; [done |].
  rewrite length_app in Hlen. simpl in Hlen.
  apply NoDup_app in Hnd as (Hnd & Hnew & _).
  pose proof (wf_init n) as Hwf0.
  destruct (insert_all_distinct ws (__init__ n)) as [Hout Hfill];
    [done | done | done | intros; apply lookup_empty
     | rewrite filled_slots_init; simpl; lia |].
  rewrite filled_slots_init in Hfill. simpl in Hfill.
  set (s := insert_all ws (__init__ n)) in *.
  assert (wf s) as Hwf by by apply wf_insert_all.
  assert (table_size s = n) as Hsize by by apply table_size_insert_all.
  assert (insert w s = (Raise (ValueError table_full_message), s)) as Hins.
  { apply insert_full; [lia | |].
    - destruct (word_to_index s !! w) as [i |] eqn:Hw; [| done].
      apply word_to_index_insert_all in Hw as [Hw | Hw]; [| | done].
      + simpl in Hw. by rewrite lookup_empty in Hw.
      + destruct (Hnew w Hw). by constructor.
    - intros k Hk. apply filled_all_occupied.
      + unfold filled_slots in Hfill. rewrite Hfill, (wf_length s Hwf). lia.
      + rewrite (wf_length s Hwf).
        pose proof (Z.mod_pos_bound
                      (int_hash w mod table_size s + k) (table_size s)).
        lia. }
  rewrite insert_outcomes_app, insert_all_app. fold s. simpl.
  rewrite Hins, Hout. simpl.
  replace (Z.to_nat n) with (length ws) by lia. done.
Qed.

Lemma table_full_error_witness :
  insert "bird" (insert_all ["cat"; "dog"]%string (__init__ 2))
  = (Raise (ValueError table_full_message),
     insert_all ["cat"; "dog"]%string (__init__ 2)) ∧
  insert_outcomes ["cat"; "dog"; "bird"]%string (__init__ 2)
  = [Return tt; Return tt; Raise (ValueError table_full_message)] ∧
  filled_slots (insert_all ["cat"; "dog"; "bird"]%string (__init__ 2)) = 2%nat.
Proof.
  split.
  - apply (proj1 table_full_error); [by vm_compute | by vm_compute |].
    assert (table_size (insert_all ["cat"; "dog"]%string (__init__ 2)) = 2)
      as -> by (by vm_compute).
    intros k Hk. assert (k = 0 ∨ k = 1) as [-> | ->] by lia;
      vm_compute; eauto.
  - apply (proj2 table_full_error 2 ["cat"; "dog"; "bird"]%string);
      [lia | | reflexivity].
    apply (bool_decide_unpack _). by vm_compute.
Defined.

(** C5.  After any sequence of [insert] calls on a fresh table: a word is
    in one slot at most; [word_to_index] and [index_to_word] are inverse to
    each other; [word_to_index] holds exactly the occupied slots; and an
    occupied slot keeps its word through every later [insert]. *)
Theorem table_invariant n ws :
  (∀ i j w, table (insert_all ws (__init__ n)) !! i = Some (Some w) →
            table (insert_all ws (__init__ n)) !! j = Some (Some w) → i = j) ∧
  (∀ w i, word_to_index (insert_all ws (__init__ n)) !! w = Some i ↔
          index_to_word (insert_all ws (__init__ n)) !! i = Some w) ∧
  (∀ w i, word_to_index (insert_all ws (__init__ n)) !! w = Some i ↔
          0 ≤ i ∧
          table (insert_all ws (__init__ n)) !! Z.to_nat i = Some (Some w)) ∧
  (∀ ws' j v,
     table (insert_all ws (__init__ n)) !! j = Some (Some v) →
     table (insert_all ws' (insert_all ws (__init__ n))) !! j = Some (Some v)).
Proof.
  pose proof (wf_insert_all ws _ (wf_init n)) as Hwf.
  set (s := insert_all ws (__init__ n)) in *.
  destruct Hwf as [Hlen Hw2i Hi2w]. split; [| split; [| split]].
  - intros i j w Hi Hj.
    assert (word_to_index s !! w = Some (Z.of_nat i)) as Ei
      by (apply Hw2i; rewrite Nat2Z.id; split; [lia | done]).
    assert (word_to_index s !! w = Some (Z.of_nat j)) as Ej
      by (apply Hw2i; rewrite Nat2Z.id; split; [lia | done]).
    rewrite Ei in Ej. injection Ej. lia.
  - intros w i. by rewrite Hi2w.
  - apply Hw2i.
  - intros ws' j v. by apply insert_all_keeps_slot.
Qed.

(** C8.  For a word [w] that is in the table, [insert(w)] returns and
    changes nothing: the slot array, the number of filled slots and the
    result of every [find_encrypted_word] stay the same. *)
Theorem insert_idempotent n ws w :
  (∃ j, table (insert_all ws (__init__ n)) !! j = Some (Some w)) →
  insert w (insert_all ws (__init__ n))
  = (Return tt, insert_all ws (__init__ n)) ∧
  table (insert w (insert_all ws (__init__ n))).2
  = table (insert_all ws (__init__ n)) ∧
  filled_slots (insert w (insert_all ws (__init__ n))).2
  = filled_slots (insert_all ws (__init__ n)) ∧
  ∀ x, find_encrypted_word x (insert w (insert_all ws (__init__ n))).2
       = find_encrypted_word x (insert_all ws (__init__ n)).
Proof.
  intros [j Hj].
  pose proof (wf_insert_all ws _ (wf_init n)) as Hwf.
  set (s := insert_all ws (__init__ n)) in *.
  assert (insert w s = (Return tt, s)) as ->; [| done].
  assert (word_to_index s !! w = Some (Z.of_nat j)) as Hw.
  { apply (wf_word_to_index s Hwf). rewrite Nat2Z.id. split; [lia | done]. }
  unfold insert. by rewrite Hw.
Qed.

Lemma insert_idempotent_witness :
  insert "cat" (insert_all ["cat"; "dog"]%string (__init__ 5))
  = (Return tt, insert_all ["cat"; "dog"]%string (__init__ 5)).
Proof.
  apply (insert_idempotent 5 ["cat"; "dog"]%string "cat").
  exists 1%nat. by vm_compute.
Defined.
End insert_claims.

(** ** find_encrypted_word *)

Section find.
Implicit Types (s : HashMapper) (w : string) (b k : nat).

Lemma walk_range n start step k :
  0 < n → 0 ≤ start < n → 0 ≤ walk n start step k < n.
Proof. intros Hn Hs. destruct k; simpl; [done |]. by apply Z.mod_pos_bound. Qed.

Lemma is_substitute_true slot w :
  is_substitute slot w = true → ∃ v, slot = Some v ∧ v ≠ w.
Proof.
  destruct slot as [v |]; simpl; [| done].
  destruct (decide (v = w)); [done | eauto].
Qed.

Lemma is_substitute_false s w i slot :
  table s !! Z.to_nat i = Some slot → is_substitute slot w = false →
  passed s w i.
Proof.
  intros Hi. destruct slot as [v |]; simpl; [| by left].
  destruct (decide (v = w)) as [-> | ?]; [by right | done].
Qed.

(* the loop, entered at position [k] of the walk with [attempts = k] *)
Lemma find_loop_walk b s w step start k :
  wf s → 0 ≤ start < table_size s →
  (Z.to_nat (table_size s - Z.of_nat k) ≤ b)%nat →
  (∀ j, (j < k)%nat → passed s w (walk (table_size s) start step j)) →
  (∀ j, (0 < j ≤ k)%nat → walk (table_size s) start step j ≠ start) →
  ∃ r, find_loop b s w step start (walk (table_size s) start step k)
         (Z.of_nat k) = Return r ∧
       first_on_walk s w (walk (table_size s) start step) r.
Proof.
  intros Hwf Hstart. set (n := table_size s) in *.
  revert k. induction b as [| b IH]; intros k Hb Hpassed Hnotback.
  - exists None. simpl. fold n.
    destruct (Z.ltb_spec (Z.of_nat k) n); [lia |]. split; [done |].
    intros k' [Hk' _]. apply Hpassed. lia.
  - simpl. fold n. destruct (Z.ltb_spec (Z.of_nat k) n) as [Hk | Hk].
    2:{ exists None. split; [done |]. intros k' [Hk' _]. apply Hpassed. lia. }
    pose proof (walk_range n start step k) as Hr.
    destruct (lookup_lt_is_Some_2 (table s) (Z.to_nat (walk n start step k)))
      as [slot Hslot]; [rewrite (wf_length s Hwf); fold n; lia |].
    rewrite (py_getitem_Return _ _ slot); [| lia | done]. cbn [bind].
    destruct (is_substitute slot w) eqn:Hsub.
    + apply is_substitute_true in Hsub as (v & -> & Hv).
      exists (Some v). split; [done |]. split; [done |].
      exists k. split; [split; [done |] |]; [| done].
      intros j Hj. by apply Hnotback.
    + apply (is_substitute_false s w _ _ Hslot) in Hsub.
      rewrite py_mod_Return by lia. cbn [bind].
      change ((walk n start step k + step) mod n)
        with (walk n start step (S k)).
      assert (∀ j, (j < S k)%nat → passed s w (walk n start step j)) as Hpassed'.
      { intros j Hj. destruct (decide (j = k)) as [-> | ?]; [done |].
        apply Hpassed. lia. }
      destruct (Z.eqb_spec (walk n start step (S k)) start) as [Hback | Hgo].
      * exists None. split; [done |]. intros k' [Hk' Hnb].
        apply Hpassed'. destruct (decide (k' < S k)%nat); [done |].
        destruct (Hnb (S k)); [lia | done].
      * replace (Z.of_nat k + 1) with (Z.of_nat (S k)) by lia.
        apply IH; [lia | done |].
        intros j Hj. destruct (decide (j = S k)) as [-> | ?]; [done |].
        apply Hnotback. lia.
Qed.

(* a stored word means a table of one slot at least *)
Lemma word_to_index_size s w i :
  wf s → word_to_index s !! w = Some i → 1 ≤ table_size s.
Proof.
  intros Hwf [Hi Hl%lookup_lt_Some]%(wf_word_to_index s Hwf).
  rewrite (wf_length s Hwf) in Hl. lia.
Qed.

(* find_encrypted_word only looks at the normalised word *)
Lemma find_encrypted_word_norm x y s :
  str.strip (str.lower x) = str.strip (str.lower y) →
  find_encrypted_word x s = find_encrypted_word y s.
Proof. intros Heq. unfold find_encrypted_word. by rewrite Heq. Qed.

Lemma find_encrypted_word_absent x s :
  word_to_index s !! str.strip (str.lower x) = None →
  find_encrypted_word x s = Return None.
Proof. intros Hx. unfold find_encrypted_word. by rewrite Hx. Qed.

(* with two slots or more the lookup of a stored word returns, and what it
   returns is the first other word on the walk *)
Lemma find_encrypted_word_stored x s i :
  wf s → 2 ≤ table_size s →
  word_to_index s !! str.strip (str.lower x) = Some i →
  ∃ r, find_encrypted_word x s = Return r ∧
       first_on_walk s (str.strip (str.lower x))
         (walk_of (table_size s) (str.strip (str.lower x))) r.
Proof.
  intros Hwf Hn Hx. unfold find_encrypted_word, _compute_hash, _compute_step.
  rewrite Hx. set (w := str.strip (str.lower x)).
  rewrite py_mod_Return by lia. cbn [bind].
  rewrite py_floordiv_Return by lia. cbn [bind].
  rewrite py_mod_Return by lia. cbn [bind].
  rewrite py_mod_Return by lia. cbn [bind].
  set (start := (int_hash w mod table_size s
                 + (1 + (int_hash w / table_size s) mod (table_size s - 1)))
                mod table_size s).
  apply (find_loop_walk (Z.to_nat (table_size s)) s w _ start 0).
  - done.
  - apply Z.mod_pos_bound. lia.
  - lia.
  - intros j Hj. lia.
  - intros j Hj. lia.
Qed.

(* except for a table of one slot the lookup always returns, and never
   the normalised word itself *)
Lemma find_encrypted_word_Return x s :
  wf s → table_size s ≠ 1 →
  ∃ r, find_encrypted_word x s = Return r ∧
       ∀ v, r = Some v →
            v ≠ str.strip (str.lower x) ∧ ∃ j, table s !! j = Some (Some v).
Proof.
  intros Hwf Hn.
  destruct (word_to_index s !! str.strip (str.lower x)) as [i |] eqn:Hx.
  - pose proof (word_to_index_size _ _ _ Hwf Hx).
    destruct (find_encrypted_word_stored x s i) as (r & Hr & Hwalk);
      [done | lia | done |].
    exists r. split; [done |]. intros v ->.
    destruct Hwalk as (Hv & k & _ & Hk & _). eauto.
  - exists None. split; [by apply find_encrypted_word_absent | done].
Qed.

Lemma word_to_index_insert_mono x s w i :
  wf s → word_to_index s !! w = Some i →
  word_to_index (insert x s).2 !! w = Some i.
Proof.
  intros Hwf Hw. destruct (insert x s) as [r s'] eqn:Hins.
  destruct (insert_inv _ _ _ _ Hwf Hins) as [-> | (_ & Hx & j & _ & _ & ->)];
    [done |].
  simpl. rewrite lookup_insert_ne; [done |]. congruence.
Qed.

Lemma word_to_index_insert_all_mono ws s w i :
  wf s → word_to_index s !! w = Some i →
  word_to_index (insert_all ws s) !! w = Some i.
Proof.
  revert s. induction ws as [| x ws IH]; intros s Hwf Hw; [done |].
  simpl. apply IH; [by apply wf_insert | by apply word_to_index_insert_mono].
Qed.

Lemma insert_Return_stored w s :
  (insert w s).1 = Return tt →
  is_Some (word_to_index (insert w s).2 !! w).
Proof.
  unfold insert. destruct (word_to_index s !! w) as [i |] eqn:Hw.
  - simpl. rewrite Hw. eauto.
  - destruct (bind _ _) as [[i table'] | e]; simpl; [| done].
    rewrite lookup_insert_eq. eauto.
Qed.

Lemma inserted_stored w ws s0 :
  wf s0 → inserted w ws s0 →
  is_Some (word_to_index (insert_all ws s0) !! w).
Proof.
  intros Hwf (before & after & -> & Hret).
  apply insert_Return_stored in Hret as [i Hi].
  rewrite insert_all_app. simpl. exists i.
  apply word_to_index_insert_all_mono; [| done].
  apply wf_insert. by apply wf_insert_all.
Qed.
End find.

(** ** Strings *)

Section strings.
Implicit Types (l : list ascii) (c : ascii) (w : string).

Lemma isupper_lower_char c : str.isupper_char (str.lower_char c) = false.
Proof. by destruct c as [[] [] [] [] [] [] [] []]. Qed.

Lemma lstrip_chars_Forall (P : ascii → Prop) l :
  Forall P l → Forall P (str.lstrip_chars l).
Proof.
  induction 1 as [| c l Hc Hl IH]; simpl; [done |].
  destruct (str.isspace_char c); [done | by constructor].
Qed.

Lemma strip_chars_Forall (P : ascii → Prop) l :
  Forall P l → Forall P (str.strip_chars l).
Proof.
  intros Hl. unfold str.strip_chars, str.rstrip_chars.
  by apply List.Forall_rev, lstrip_chars_Forall, List.Forall_rev,
    lstrip_chars_Forall.
Qed.

Lemma lift_chars f w :
  list_ascii_of_string (str.lift f w) = f (list_ascii_of_string w).
Proof. apply list_ascii_of_string_of_list_ascii. Qed.

(* the normalised word has no upper-case letter *)
Lemma normalised_no_upper w :
  Forall (λ c, str.isupper_char c = false)
    (list_ascii_of_string (str.strip (str.lower w))).
Proof.
  unfold str.strip, str.lower. rewrite !lift_chars.
  apply strip_chars_Forall, Forall_forall.
  intros c (c0 & -> & _)%list_elem_of_fmap. apply isupper_lower_char.
Qed.

Lemma has_upper_not_normalised w :
  has_upper w = true → str.strip (str.lower w) ≠ w.
Proof.
  unfold has_upper. intros Hup Heq.
  apply existsb_exists in Hup as (c & Hc & Hupper).
  pose proof (normalised_no_upper w) as Hno. rewrite Heq in Hno.
  rewrite List.Forall_forall in Hno. specialize (Hno c Hc). congruence.
Qed.
End strings.

(** ** The claims on find_encrypted_word *)

Section find_claims.

(** C1.  In a table of two slots or more, for a word [w] (of ASCII
    characters, lower case and trimmed) whose [insert] returned, [find_encrypted_word(w)] returns
    [None] or a word [v] that differs from [w] and is in an occupied slot;
    [v] is in the first slot holding a word other than [w] on the walk
    that starts at [(primary_index + step) mod capacity] and advances by
    [step] modulo the capacity, for [capacity] steps at most or until the
    walk is back at its start; [None] means that the walk has no such
    slot. *)
Theorem find_encrypted_word_first_other n ws w :
  2 ≤ n → str.isascii w = true → str.strip (str.lower w) = w →
  inserted w ws (__init__ n) →
  ∃ r, find_encrypted_word w (insert_all ws (__init__ n)) = Return r ∧
       match r with
       | None =>
           ∀ k, reached n (walk_of n w) k →
                passed (insert_all ws (__init__ n)) w (walk_of n w k)
       | Some v =>
           v ≠ w ∧
           (∃ j, table (insert_all ws (__init__ n)) !! j = Some (Some v)) ∧
           ∃ k, reached n (walk_of n w) k ∧
                table (insert_all ws (__init__ n)) !! Z.to_nat (walk_of n w k)
                = Some (Some v) ∧
                ∀ j, (j < k)%nat →
                     passed (insert_all ws (__init__ n)) w (walk_of n w j)
       end.
Proof.
  intros Hn _ Hnorm Hins.
  pose proof (wf_insert_all ws _ (wf_init n)) as Hwf.
  pose proof (table_size_insert_all ws _ (wf_init n)) as Hsize.
  apply inserted_stored in Hins as [i Hi]; [| apply wf_init].
  set (s := insert_all ws (__init__ n)) in *. simpl in Hsize.
  destruct (find_encrypted_word_stored w s i) as (r & Hr & Hwalk);
    [done | lia | by rewrite Hnorm |].
  rewrite Hnorm, Hsize in Hwalk.
  exists r. split; [done |]. destruct r as [v |]; simpl in Hwalk.
  - destruct Hwalk as (Hv & k & Hk & Hslot & Hbefore). rewrite Hsize in Hk.
    split; [done |]. split; [by eexists |]. by exists k.
  - intros k Hk. apply Hwalk. by rewrite Hsize.
Qed.

Lemma find_encrypted_word_first_other_witness :
  ∃ r, find_encrypted_word "cat"
         (insert_all ["cat"; "dog"; "bird"; "fish"; "fox"]%string (__init__ 5))
       = Return r.
Proof.
  destruct (find_encrypted_word_first_other 5
              ["cat"; "dog"; "bird"; "fish"; "fox"]%string "cat")
    as (r & Hr & _).
  - lia.
  - reflexivity.
  - reflexivity.
  - exists [], ["dog"; "bird"; "fish"; "fox"]%string.
    split; [reflexivity | by vm_compute].
  - by exists r.
Defined.

(* in a table of one slot the step cannot be computed for a stored word *)
Lemma find_encrypted_word_one_slot x s i :
  table_size s = 1 → word_to_index s !! str.strip (str.lower x) = Some i →
  find_encrypted_word x s = Raise ZeroDivisionError.
Proof.
  intros Hn Hx. unfold find_encrypted_word, _compute_hash, _compute_step.
  rewrite Hx, Hn. by rewrite py_mod_Return, py_floordiv_Return.
Qed.

(** C2.  In a table of capacity 1 that holds the word ["a"],
    [find_encrypted_word("a")] raises [ZeroDivisionError], where the claim
    has [None]; for a word that is not stored it returns [None]. *)
Theorem capacity_one_lookup :
  insert "a" (__init__ 1)
  = (Return tt, mkHashMapper 1 [Some "a"%string] {[ "a"%string := 0 ]}
                  {[ 0 := "a"%string ]}) ∧
  find_encrypted_word "a" (insert "a" (__init__ 1)).2
  = Raise ZeroDivisionError ∧
  find_encrypted_word "b" (insert "a" (__init__ 1)).2 = Return None.
Proof. by vm_compute. Qed.

(** C3 as stated fails: the construction with capacity 0 returns a table,
    it does not fail. *)
Lemma construct_capacity_zero :
  HashMapper_call 0 = Return (mkHashMapper 0 [] ∅ ∅) ∧
  ¬ ∃ e, HashMapper_call 0 = Raise e.
Proof. split; [done |]. by intros [e He]. Qed.

(** C3, amended.  The construction with a capacity below 1 does not fail:
    it returns a table of that capacity with no slot and with empty
    indexes. *)
Theorem construct_below_one n :
  n < 1 → HashMapper_call n = Return (mkHashMapper n [] ∅ ∅).
Proof.
  intros Hn. unfold HashMapper_call, __init__.
  by replace (Z.to_nat n) with 0%nat by lia.
Qed.

Lemma construct_below_one_witness :
  HashMapper_call (-3) = Return (mkHashMapper (-3) [] ∅ ∅).
Proof. apply construct_below_one. lia. Defined.

(** C10.  [insert] stores its argument as it is, [find_encrypted_word]
    looks up the lower-cased and trimmed argument: for a string [w] of
    ASCII characters with an upper-case letter whose normalised form was
    never inserted, after [insert(w)] the call [find_encrypted_word(w)]
    returns [None], although [w] is in a slot: whenever the [insert]
    returned, and it does return, with [w] in a slot, when the table (of a
    capacity of 1 or more) had a free slot. *)
Theorem find_after_verbatim_insert n ws w :
  str.isascii w = true → has_upper w = true → str.strip (str.lower w) ∉ ws →
  find_encrypted_word w (insert w (insert_all ws (__init__ n))).2
  = Return None ∧
  ((insert w (insert_all ws (__init__ n))).1 = Return tt →
   ∃ j, table (insert w (insert_all ws (__init__ n))).2 !! j = Some (Some w)) ∧
  (1 ≤ n → (∃ j, table (insert_all ws (__init__ n)) !! j = Some None) →
   (insert w (insert_all ws (__init__ n))).1 = Return tt ∧
   ∃ j, table (insert w (insert_all ws (__init__ n))).2 !! j = Some (Some w)).
Proof.
  intros _ Hup Hnew.
  pose proof (wf_insert_all ws _ (wf_init n)) as Hwf.
  pose proof (table_size_insert_all ws _ (wf_init n)) as Hsize.
  set (s := insert_all ws (__init__ n)) in *. simpl in Hsize.
  pose proof (wf_insert w s Hwf) as Hwf'.
  assert ((insert w s).1 = Return tt →
          ∃ j, table (insert w s).2 !! j = Some (Some w)) as Hstored.
  { intros [i Hi]%insert_Return_stored.
    apply (wf_word_to_index _ Hwf') in Hi as [_ Hi]. eauto. }
  split; [| split; [done |]].
  2:{ intros Hn Hfree.
      assert ((insert w s).1 = Return tt) as Hret; [| by split; [| apply Hstored]].
      destruct (word_to_index s !! w) as [i |] eqn:Hw.
      - unfold insert. by rewrite Hw.
      - destruct (insert_Return w s) as (i & _ & _ & ->); [done | lia | done ..]. }
  - apply find_encrypted_word_absent.
    destruct (word_to_index (insert w s).2 !! _) as [i |] eqn:Hi; [| done].
    apply (word_to_index_insert_all [w] s) in Hi as [Hi | Hi]; [| | done].
    + apply word_to_index_insert_all in Hi as [Hi | Hi]; [| done | apply wf_init].
      simpl in Hi. by rewrite lookup_empty in Hi.
    + apply list_elem_of_singleton in Hi.
      by apply has_upper_not_normalised in Hup.
Qed.

Lemma find_after_verbatim_insert_witness :
  find_encrypted_word "Cat" (insert "Cat" (insert_all ["dog"]%string (__init__ 5))).2
  = Return None ∧
  (insert "Cat" (insert_all ["dog"]%string (__init__ 5))).1 = Return tt ∧
  ∃ j, table (insert "Cat" (insert_all ["dog"]%string (__init__ 5))).2 !! j
       = Some (Some "Cat"%string).
Proof.
  destruct (find_after_verbatim_insert 5 ["dog"]%string "Cat")
    as (Hnone & _ & Hstored).
  - reflexivity.
  - reflexivity.
  - apply (bool_decide_unpack _). by vm_compute.
  - split; [exact Hnone |]. apply Hstored; [lia |].
    exists 0%nat. by vm_compute.
Defined.
End find_claims.

(** ** get_encryption_mapping *)

Section mapping.
Implicit Types (s : HashMapper) (m : gmap string string) (w x k v : string).

(* a lookup that returns a word returns another word of the table *)
Lemma find_encrypted_word_Some x s v :
  wf s → find_encrypted_word x s = Return (Some v) →
  v ≠ str.strip (str.lower x) ∧ ∃ j, table s !! j = Some (Some v).
Proof.
  intros Hwf Hfind. destruct (decide (table_size s = 1)) as [Hone | Hn].
  - destruct (word_to_index s !! str.strip (str.lower x)) as [i |] eqn:Hx.
    + by rewrite (find_encrypted_word_one_slot x s i) in Hfind.
    + by rewrite find_encrypted_word_absent in Hfind.
  - destruct (find_encrypted_word_Return x s Hwf Hn) as (r & Hr & Hv).
    apply Hv. congruence.
Qed.

Lemma found_substitute_Some r v :
  found_substitute r = Some v → r = Some v.
Proof.
  destruct r as [e |]; simpl; [| done]. destruct (str.truthy e); congruence.
Qed.

Lemma substitute_lower s x w :
  str.lower x = str.lower w → substitute s x = substitute s w.
Proof.
  intros Heq. unfold substitute.
  rewrite (find_encrypted_word_norm x w); [done | by rewrite Heq].
Qed.

Lemma mapping_loop_Return s ws m0 :
  (∀ w, w ∈ ws → ∃ r, find_encrypted_word w s = Return r) →
  ∃ m, mapping_loop s ws m0 = Return m.
Proof.
  revert m0. induction ws as [| x ws IH]; intros m0 Hret; simpl; [eauto |].
  destruct (Hret x) as [r ->]; [by constructor |]. cbn [bind].
  apply IH. intros w Hw. apply Hret. by constructor.
Qed.

(* the entries of the map: a key is the lower-cased form of a word with a
   substitute, its value is that substitute *)
Lemma mapping_loop_lookup s ws m0 m :
  mapping_loop s ws m0 = Return m →
  ∀ k v, m !! k = Some v ↔
         (∃ w, w ∈ ws ∧ str.lower w = k ∧ substitute s w = Some v) ∨
         (m0 !! k = Some v ∧
          ∀ w, w ∈ ws → str.lower w = k → substitute s w = None).
Proof.
  revert m0. induction ws as [| x ws IH]; intros m0; simpl.
  { intros [= ->] k v. split; [intros Hk; right | intros [(w & Hw & _) | [Hk _]]].
    - split; [done |]. by intros w Hw%elem_of_nil.
    - by apply elem_of_nil in Hw.
    - done. }
  destruct (find_encrypted_word x s) as [r | e] eqn:Hfind; cbn [bind]; [| done].
  assert (substitute s x = found_substitute r) as Hsub
    by (unfold substitute; by rewrite Hfind).
  intros Hloop k v. rewrite (IH _ Hloop k v). clear IH Hloop.
  destruct (found_substitute r) as [e |] eqn:He.
  - destruct (decide (str.lower x = k)) as [<- | Hne].
    + rewrite lookup_insert_eq. split.
      * intros [(w & Hw & Hk & Hv) | [[= <-] _]]; left.
        -- exists w. split; [by constructor | done].
        -- exists x. split; [by constructor | done].
      * intros [(w & Hw & Hk & Hv) | [_ Hnone]].
        -- assert (v = e) as -> by (rewrite (substitute_lower s w x) in Hv by done;
                                    congruence).
           destruct (decide (Exists (λ y, str.lower y = str.lower x) ws))
             as [(y & Hy & Hyk)%Exists_exists | Hno].
           ++ left. exists y. split; [done |]. split; [done |].
              by rewrite (substitute_lower s y x).
           ++ right. split; [done |]. intros y Hy Hyk.
              destruct Hno. apply Exists_exists. eauto.
        -- rewrite (Hnone x) in Hsub; [done | by constructor | done].
    + rewrite lookup_insert_ne by done. split.
      * intros [(w & Hw & Hk & Hv) | [Hk Hnone]].
        -- left. exists w. split; [by constructor | done].
        -- right. split; [done |]. intros w [-> | Hw]%elem_of_cons Hwk; [done |].
           by apply Hnone.
      * intros [(w & [-> | Hw]%elem_of_cons & Hk & Hv) | [Hk Hnone]].
        -- done.
        -- left. eauto.
        -- right. split; [done |]. intros w Hw. apply Hnone. by constructor.
  - split.
    + intros [(w & Hw & Hk & Hv) | [Hk Hnone]].
      * left. exists w. split; [by constructor | done].
      * right. split; [done |]. intros w [-> | Hw]%elem_of_cons Hwk; [done |].
        by apply Hnone.
    + intros [(w & [-> | Hw]%elem_of_cons & Hk & Hv) | [Hk Hnone]].
      * congruence.
      * left. eauto.
      * right. split; [done |]. intros w Hw. apply Hnone. by constructor.
Qed.

(* the order in which the loop meets the words does not matter *)
Lemma mapping_loop_order s ws1 ws2 m1 m2 :
  (∀ w, w ∈ ws1 ↔ w ∈ ws2) →
  mapping_loop s ws1 ∅ = Return m1 → mapping_loop s ws2 ∅ = Return m2 →
  m1 = m2.
Proof.
  intros Hsame H1 H2. apply map_eq. intros k. apply option_eq. intros v.
  rewrite (mapping_loop_lookup _ _ _ _ H1), (mapping_loop_lookup _ _ _ _ H2).
  rewrite !lookup_empty. split; intros [(w & Hw & Hrest) | [[=] _]]; left;
    exists w; (split; [by apply Hsame | done]).
Qed.

Lemma get_encryption_mapping_lookup words s m :
  get_encryption_mapping words s = Return m →
  ∀ k v, m !! k = Some v ↔
         ∃ w, w ∈ words ∧ str.lower w = k ∧ substitute s w = Some v.
Proof.
  intros Hm k v. rewrite (mapping_loop_lookup _ _ _ _ Hm), lookup_empty.
  split.
  - intros [(w & Hw & Hrest) | [[=] _]]. exists w. split; [| done].
    by apply elem_of_elements, elem_of_list_to_set in Hw.
  - intros (w & Hw & Hrest). left. exists w. split; [| done].
    by apply elem_of_elements, elem_of_list_to_set.
Qed.

(** C9.  For input words of ASCII characters whose lower-cased form has
    no blank around it, a map returned by [get_encryption_mapping] has no entry whose key is its
    own value, and a word whose lookup returns [None] has no entry; the call
    returns a map whenever the capacity is not 1. *)
Theorem mapping_key_differs n ws words :
  (∀ w, w ∈ words → str.isascii w = true) →
  (∀ w, w ∈ words → str.strip (str.lower w) = str.lower w) →
  (∀ m, get_encryption_mapping words (insert_all ws (__init__ n)) = Return m →
        (∀ k v, m !! k = Some v → k ≠ v) ∧
        (∀ w, w ∈ words →
              find_encrypted_word w (insert_all ws (__init__ n)) = Return None →
              m !! str.lower w = None)) ∧
  (n ≠ 1 →
   ∃ m, get_encryption_mapping words (insert_all ws (__init__ n)) = Return m).
Proof.
  intros _ Hwords.
  pose proof (wf_insert_all ws _ (wf_init n)) as Hwf.
  pose proof (table_size_insert_all ws _ (wf_init n)) as Hsize.
  set (s := insert_all ws (__init__ n)) in *. simpl in Hsize.
  split.
  - intros m Hm. split.
    + intros k v (w & Hw & <- & Hv)%(get_encryption_mapping_lookup _ _ _ Hm).
      unfold substitute in Hv.
      destruct (find_encrypted_word w s) as [r | e] eqn:Hfind; [| done].
      apply found_substitute_Some in Hv as ->.
      apply find_encrypted_word_Some in Hfind as [Hv _]; [| done].
      rewrite Hwords in Hv by done. congruence.
    + intros w Hw Hnone.
      destruct (m !! str.lower w) as [v |] eqn:Hv; [| done].
      apply (get_encryption_mapping_lookup _ _ _ Hm) in Hv as (x & Hx & Hk & Hv).
      rewrite (substitute_lower s x w) in Hv by done.
      unfold substitute in Hv. by rewrite Hnone in Hv.
  - intros Hn. apply mapping_loop_Return. intros w _.
    destruct (find_encrypted_word_Return w s) as (r & Hr & _);
      [done | by rewrite Hsize | eauto].
Qed.

Lemma mapping_key_differs_witness :
  ∃ m, get_encryption_mapping ["cat"; "Dog"; "cow"]%string
         (insert_all ["cat"; "dog"; "bird"; "fish"; "fox"]%string (__init__ 5))
       = Return m.
Proof.
  apply (mapping_key_differs 5 ["cat"; "dog"; "bird"; "fish"; "fox"]%string
           ["cat"; "Dog"; "cow"]%string); [| | lia].
  - intros w Hw.
    repeat (apply elem_of_cons in Hw as [-> | Hw]; [reflexivity |]).
    by apply elem_of_nil in Hw.
  - intros w Hw.
    repeat (apply elem_of_cons in Hw as [-> | Hw]; [reflexivity |]).
    by apply elem_of_nil in Hw.
Defined.
End mapping.

(** ** The scan of re.sub *)

Section scan.
Variable repl : list ascii → list ascii.
Implicit Types (l run pre post text : list ascii) (c : ascii)
  (b : option ascii).

Local Abbreviation alpha := (λ c, str.isalpha_char c = true).

Lemma isalpha_is_word c : str.isalpha_char c = true → re.is_word_char c = true.
Proof. unfold re.is_word_char. by intros ->. Qed.

Lemma last_or_cons b c l : last_or b (c :: l) = last_or (Some c) l.
Proof.
  unfold last_or. destruct l as [| d l]; [done |].
  change (last (c :: d :: l)) with (last (d :: l)).
  destruct (last (d :: l)) eqn:Hl; [done |]. by apply last_None in Hl.
Qed.

Lemma last_or_nonempty b l : l ≠ [] → last_or b l = last l.
Proof.
  unfold last_or. destruct (last l) eqn:Hl; [done |].
  by apply last_None in Hl.
Qed.

(* the characters of a match are skipped *)
Lemma sub_from_skip b l post :
  re.sub_from repl b (length l) (l ++ post)
  = re.sub_from repl (last_or b l) 0 post.
Proof.
  revert b. induction l as [| c l IH]; intros b; [done |].
  simpl. by rewrite IH, last_or_cons.
Qed.

(* no match starts at a character that is no letter *)
Lemma sub_from_other b c text :
  str.isalpha_char c = false →
  re.sub_from repl b 0 (c :: text) = c :: re.sub_from repl (Some c) 0 text.
Proof.
  intros Hc. simpl. unfold re.match_here. simpl. rewrite Hc. simpl.
  by destruct (re.boundary b (Some c)).
Qed.

Lemma sub_from_start b b' text :
  starts_without str.isalpha_char text →
  re.sub_from repl b 0 text = re.sub_from repl b' 0 text.
Proof.
  destruct text as [| c text]; [done |]. intros Hc.
  unfold starts_without in Hc. simpl in Hc. by rewrite !sub_from_other.
Qed.

Lemma sub_from_no_alpha b text :
  Forall (λ c, str.isalpha_char c = false) text →
  re.sub_from repl b 0 text = text.
Proof.
  intros Htext. revert b. induction Htext as [| c text Hc _ IH]; intros b; [done |].
  by rewrite sub_from_other, IH.
Qed.

Lemma alpha_run_app run post :
  Forall alpha run → starts_without str.isalpha_char post →
  re.alpha_run (run ++ post) = run.
Proof.
  intros Hrun Hpost. induction Hrun as [| c run Hc _ IH]; simpl.
  - destruct post as [| d post]; [done |]. simpl in *. by rewrite Hpost.
  - by rewrite Hc, IH.
Qed.

(* the closing [\b] does not hold inside a run *)
Lemma close_match_inside j run post :
  Forall alpha run → (j < length run)%nat →
  re.close_match j (run ++ post) = None.
Proof.
  intros Hrun. induction j as [| j IH]; intros Hj; [done |].
  simpl. rewrite IH by lia.
  destruct (lookup_lt_is_Some_2 run j) as [c Hc]; [lia |].
  destruct (lookup_lt_is_Some_2 run (S j)) as [d Hd]; [lia |].
  rewrite !(lookup_app_l_Some _ _ _ _ Hc), !(lookup_app_l_Some _ _ _ _ Hd).
  rewrite Forall_lookup in Hrun.
  unfold re.boundary. simpl.
  by rewrite (isalpha_is_word c), (isalpha_is_word d) by eauto.
Qed.

Lemma match_here_run b c run post :
  Forall alpha (c :: run) → starts_without str.isalpha_char post →
  re.match_here b (c :: run ++ post)
  = if negb (re.is_word b) && negb (re.is_word (head post))
    then Some (S (length run)) else None.
Proof.
  intros Hrun Hpost. unfold re.match_here.
  rewrite (app_comm_cons run post c), alpha_run_app by done.
  pose proof (Forall_inv Hrun) as Hc. simpl in Hc.
  unfold re.boundary at 1. simpl. rewrite (isalpha_is_word c Hc).
  destruct (re.is_word b); simpl; [done |].
  assert (∃ d, (c :: run) !! length run = Some d ∧ str.isalpha_char d = true)
    as (d & Hd & Hdalpha).
  { destruct (lookup_lt_is_Some_2 (c :: run) (length run)) as [d Hd];
      [simpl; lia |].
    exists d. split; [done |]. rewrite Forall_lookup in Hrun. by eapply Hrun. }
  change (c :: run ++ post) with ((c :: run) ++ post).
  rewrite (lookup_app_l_Some _ _ _ _ Hd).
  replace ((run ++ post) !! length run) with (head post).
  2:{ rewrite lookup_app_r by done. rewrite Nat.sub_diag. by destruct post. }
  unfold re.boundary. simpl. rewrite (isalpha_is_word d Hdalpha). simpl.
  destruct (re.is_word (head post)); simpl; [| done].
  apply (close_match_inside (length run) (c :: run) post); [done | simpl; lia].
Qed.

(* a letter after a word character starts no match *)
Lemma sub_from_inside b run post :
  Forall alpha run → re.is_word b = true →
  re.sub_from repl b 0 (run ++ post)
  = run ++ re.sub_from repl (last_or b run) 0 post.
Proof.
  intros Hrun. revert b. induction Hrun as [| c run Hc _ IH]; intros b Hb; [done |].
  simpl. unfold re.match_here, re.boundary. rewrite Hb. simpl.
  rewrite (isalpha_is_word c Hc). simpl.
  rewrite IH by (simpl; by apply isalpha_is_word).
  by rewrite last_or_cons.
Qed.

(* a whole run: replaced when it has a [\b] on both sides, left as it is
   otherwise *)
Lemma sub_from_run b run post :
  run ≠ [] → Forall alpha run → starts_without str.isalpha_char post →
  re.sub_from repl b 0 (run ++ post)
  = (if negb (re.is_word b) && negb (re.is_word (head post))
     then repl run else run)
    ++ re.sub_from repl (last run) 0 post.
Proof.
  intros Hne Hrun Hpost. destruct run as [| c run]; [done |].
  pose proof (Forall_inv Hrun) as Hc. simpl in Hc.
  rewrite <- (last_or_nonempty b (c :: run)) by done. rewrite last_or_cons.
  cbn [app re.sub_from]. rewrite match_here_run by done.
  destruct (negb (re.is_word b) && negb (re.is_word (head post))).
  - change (take (S (length run)) (c :: run ++ post))
      with (c :: take (length run) (run ++ post)).
    rewrite take_app_length. simpl. by rewrite Nat.sub_0_r, sub_from_skip.
  - rewrite sub_from_inside; [done | by eapply Forall_inv_tail |].
    simpl. by apply isalpha_is_word.
Qed.
End scan.

(** ** The scan, piece by piece *)

Section scan_pieces.
Variable repl : list ascii → list ascii.
Implicit Types (l run pre post text : list ascii) (c : ascii)
  (b : option ascii).

Local Abbreviation alpha := (λ c, str.isalpha_char c = true).

Lemma alpha_run_Forall l : Forall alpha (re.alpha_run l).
Proof.
  induction l as [| c l IH]; simpl; [done |].
  destruct (str.isalpha_char c) eqn:Hc; [by constructor | done].
Qed.

(* a text is its leading run and a rest that starts with no letter *)
Lemma alpha_run_split l :
  ∃ post, l = re.alpha_run l ++ post ∧ starts_without str.isalpha_char post.
Proof.
  induction l as [| c l (post & Hl & Hpost)]; simpl; [by exists [] |].
  destruct (str.isalpha_char c) eqn:Hc.
  - exists post. split; [simpl; by f_equal | done].
  - by exists (c :: l).
Qed.

(* the scan of a text that is cut where no run is cut *)
Lemma sub_from_app b pre text :
  ends_without str.isalpha_char pre →
  re.sub_from repl b 0 (pre ++ text)
  = re.sub_from repl b 0 pre ++ re.sub_from repl (last_or b pre) 0 text.
Proof.
  remember (length pre) as n eqn:Hn. revert b pre Hn.
  induction n as [n IH] using lt_wf_ind. intros b pre -> Hend.
  destruct pre as [| c pre]; [done |].
  destruct (str.isalpha_char c) eqn:Hc.
  - destruct (alpha_run_split (c :: pre)) as (post & Hsplit & Hpost).
    pose proof (alpha_run_Forall (c :: pre)) as Hrun.
    assert (re.alpha_run (c :: pre) ≠ []) as Hne by (simpl; by rewrite Hc).
    remember (re.alpha_run (c :: pre)) as run eqn:Hrundef. clear Hrundef.
    assert (post ≠ []) as Hpne.
    { intros ->. rewrite app_nil_r in Hsplit. unfold ends_without in Hend.
      destruct (last (c :: pre)) as [d |] eqn:Hlast; [| by apply last_None in Hlast].
      apply last_Some_elem_of in Hlast. rewrite Hsplit in Hlast.
      rewrite Forall_forall in Hrun. rewrite (Hrun d Hlast) in Hend. done. }
    assert (length post < length (c :: pre))%nat as Hshort.
    { rewrite Hsplit, length_app. destruct run; [done | simpl; lia]. }
    assert (last (c :: pre) = last post) as Hlast.
    { rewrite Hsplit, last_app. destruct (last post) eqn:Hp; [done |].
      by apply last_None in Hp. }
    assert (ends_without str.isalpha_char post) as Hpend
      by (unfold ends_without in *; by rewrite <- Hlast).
    rewrite (last_or_nonempty b (c :: pre)) by done.
    rewrite Hlast, Hsplit, <- app_assoc.
    rewrite (sub_from_run repl b run (post ++ text)), (sub_from_run repl b run post);
      [| done | done | done | done | done | by destruct post].
    replace (head (post ++ text)) with (head post) by (by destruct post).
    rewrite (IH (length post) Hshort (last run) post eq_refl Hpend).
    by rewrite (last_or_nonempty _ post), app_assoc.
  - rewrite last_or_cons. cbn [app]. rewrite !sub_from_other by done.
    cbn [app]. f_equal. apply (IH (length pre)); [simpl; lia | done |].
    unfold ends_without in *. destruct pre as [| d pre]; [done |].
    by rewrite last_cons_cons in Hend.
Qed.

Lemma close_match_bound j text len :
  re.close_match j text = Some len → (1 ≤ len ≤ j)%nat.
Proof.
  induction j as [| j IH]; simpl; [done |].
  destruct (re.boundary _ _); [intros [= <-]; lia |].
  intros Hj%IH. lia.
Qed.

Lemma alpha_run_take l : take (length (re.alpha_run l)) l = re.alpha_run l.
Proof.
  induction l as [| c l IH]; simpl; [done |].
  destruct (str.isalpha_char c); simpl; [by rewrite IH | done].
Qed.

(* a match is made of letters *)
Lemma match_here_alpha b text len :
  re.match_here b text = Some len →
  (1 ≤ len)%nat ∧ Forall alpha (take len text).
Proof.
  unfold re.match_here. destruct (re.boundary b (head text)); [| done].
  intros [Hlen Hle]%close_match_bound. split; [done |].
  assert (take len text = take len (take (length (re.alpha_run text)) text))
    as -> by (by rewrite take_take, Nat.min_l).
  rewrite alpha_run_take. apply Forall_take, alpha_run_Forall.
Qed.

Lemma filter_others_alpha l :
  Forall alpha l → filter (λ c, str.isalpha_char c = false) l = [].
Proof.
  induction 1 as [| c l Hc _ IH]; [done |].
  rewrite filter_cons_False; [done | by rewrite Hc].
Qed.

(* when a replacement is made of letters, the characters that are no
   letters are those of the text, one for one *)
Lemma sub_from_others b skip text :
  (∀ run, Forall alpha run → Forall alpha (repl run)) →
  Forall alpha (take skip text) →
  filter (λ c, str.isalpha_char c = false) (re.sub_from repl b skip text)
  = filter (λ c, str.isalpha_char c = false) (drop skip text).
Proof.
  intros Hrepl. revert b skip.
  induction text as [| c text IH]; intros b skip Hskip; [by destruct skip |].
  destruct skip as [| skip]; simpl.
  - destruct (re.match_here b (c :: text)) as [len |] eqn:Hmatch.
    + apply match_here_alpha in Hmatch as [Hlen Halpha].
      destruct len as [| len]; [lia |]. simpl in Halpha.
      rewrite filter_app, IH by (simpl; rewrite Nat.sub_0_r; by eapply Forall_inv_tail).
      simpl. rewrite Nat.sub_0_r.
      rewrite (filter_others_alpha (repl _)) by by apply Hrepl.
      rewrite filter_cons_False by (rewrite (Forall_inv Halpha); done).
      rewrite <- (take_drop len text) at 2. rewrite filter_app.
      rewrite (filter_others_alpha (take len text)); [done |].
      by eapply Forall_inv_tail.
    + rewrite !filter_cons. case_decide; [f_equal |]; by apply (IH _ 0%nat).
  - simpl in Hskip. apply IH. by eapply Forall_inv_tail.
Qed.
End scan_pieces.

(** ** encrypt_text_content *)

Section transformer.
Implicit Types (l run : list ascii) (c : ascii) (m : gmap string string)
  (text pre post v : string).

Local Abbreviation alpha := (λ c, str.isalpha_char c = true).
Local Abbreviation other := (λ c, str.isalpha_char c = false).

Lemma chars_string_of l : chars (string_of_list_ascii l) = l.
Proof. apply list_ascii_of_string_of_list_ascii. Qed.

Lemma string_of_chars text : string_of_list_ascii (chars text) = text.
Proof. apply string_of_list_ascii_of_string. Qed.

Lemma chars_inj text1 text2 : chars text1 = chars text2 → text1 = text2.
Proof.
  intros Heq. by rewrite <- (string_of_chars text1), Heq, string_of_chars.
Qed.

Lemma chars_app text1 text2 : chars (text1 +:+ text2) = chars text1 ++ chars text2.
Proof. induction text1 as [| c text1 IH]; simpl; [done |]. by f_equal. Qed.

Lemma isspace_other c : str.isspace_char c = true → str.isalpha_char c = false.
Proof. by destruct c as [[] [] [] [] [] [] [] []]. Qed.

Lemma isalpha_upper_char c :
  str.isalpha_char c = true → str.isalpha_char (str.upper_char c) = true.
Proof. by destruct c as [[] [] [] [] [] [] [] []]. Qed.

Lemma isalpha_lower_char c :
  str.isalpha_char c = true → str.isalpha_char (str.lower_char c) = true.
Proof. by destruct c as [[] [] [] [] [] [] [] []]. Qed.

Lemma isupper_or_islower c :
  str.isalpha_char c = true → str.islower_char c = negb (str.isupper_char c).
Proof. by destruct c as [[] [] [] [] [] [] [] []]. Qed.

Lemma lstrip_chars_nil l :
  str.lstrip_chars l = [] → Forall (λ c, str.isspace_char c = true) l.
Proof.
  induction l as [| c l IH]; simpl; [done |].
  destruct (str.isspace_char c) eqn:Hc; [| done]. intros Hl. by constructor; auto.
Qed.

Lemma strip_chars_nil l :
  str.strip_chars l = [] → Forall (λ c, str.isspace_char c = true) l.
Proof.
  unfold str.strip_chars, str.rstrip_chars. intros Hl.
  apply (f_equal (@rev ascii)) in Hl. rewrite rev_involutive in Hl. simpl in Hl.
  apply lstrip_chars_nil, List.Forall_rev in Hl. rewrite rev_involutive in Hl.
  destruct (str.lstrip_chars l) as [| c l'] eqn:Hstrip; [by apply lstrip_chars_nil |].
  assert (str.isspace_char c = false) as Hc.
  { clear Hl. induction l as [| d l IH]; simpl in Hstrip; [done |].
    destruct (str.isspace_char d) eqn:Hd; [by apply IH |]. congruence. }
  apply Forall_inv in Hl. congruence.
Qed.

(* the two early exits of encrypt_text_content return what the scan would *)
Lemma encrypt_text_content_chars text m :
  chars (encrypt_text_content text m)
  = re.sub_from (repl_chars m) None 0 (chars text).
Proof.
  unfold encrypt_text_content.
  destruct text as [| c text]; [done |]. cbn [str.truthy negb orb].
  destruct (str.truthy (str.strip (String c text))) eqn:Hstrip; cbn [negb].
  - unfold re.sub. by rewrite chars_string_of.
  - rewrite sub_from_no_alpha; [done |].
    assert (chars (str.strip (String c text)) = []) as Hnil
      by (by destruct (str.strip (String c text))).
    unfold str.strip, chars in Hnil. rewrite lift_chars in Hnil.
    apply strip_chars_nil in Hnil.
    eapply Forall_impl; [done |]. apply isspace_other.
Qed.

(** *** replace_word on a run *)

Lemma isupper_alpha run :
  run ≠ [] → Forall alpha run →
  str.isupper_chars run = forallb str.isupper_char run.
Proof.
  intros Hne Hrun. unfold str.isupper_chars.
  destruct (forallb str.isupper_char run) eqn:Hall.
  - rewrite forallb_forall in Hall. apply andb_true_intro. split.
    + destruct run as [| c run]; [done |]. simpl. rewrite Hall; [done | by left].
    + apply forallb_forall. intros c Hc.
      rewrite isupper_or_islower, Hall; [done | done |].
      rewrite List.Forall_forall in Hrun. by apply Hrun.
  - apply andb_false_intro2. apply not_true_is_false. intros Hno.
    rewrite forallb_forall in Hno.
    assert (forallb str.isupper_char run = true); [| congruence].
    apply forallb_forall. intros c Hc. specialize (Hno c Hc).
    rewrite List.Forall_forall in Hrun.
    rewrite isupper_or_islower in Hno by by apply Hrun.
    by destruct (str.isupper_char c).
Qed.

Lemma istitle_from_cased l :
  Forall alpha l → str.istitle_from true true l = forallb str.islower_char l.
Proof.
  induction 1 as [| c l Hc _ IH]; simpl; [done |].
  rewrite (isupper_or_islower c Hc).
  destruct (str.isupper_char c); simpl; [done | apply IH].
Qed.

Lemma istitle_alpha c l :
  Forall alpha (c :: l) →
  str.istitle_chars (c :: l) = str.isupper_char c && forallb str.islower_char l.
Proof.
  intros Hrun. pose proof (Forall_inv Hrun) as Hc. simpl in Hc.
  unfold str.istitle_chars. simpl. rewrite (isupper_or_islower c Hc).
  destruct (str.isupper_char c); simpl; [| done].
  apply istitle_from_cased. by eapply Forall_inv_tail.
Qed.

Lemma capitalize_lower v : str.lower v = v → str.capitalize v = upper_first v.
Proof.
  intros Hv. apply (f_equal chars) in Hv. unfold str.lower, chars in Hv.
  rewrite lift_chars in Hv. unfold str.capitalize, str.lift.
  destruct v as [| c v]; [done |]. simpl in *.
  injection Hv as _ Hv. by rewrite Hv, string_of_list_ascii_of_string.
Qed.

Lemma replace_word_present m (run : string) v :
  alpha_word run → m !! str.lower run = Some v → str.lower v = v →
  replace_word m run = case_transfer run v.
Proof.
  intros [Hne Hrun] Hm Hv. unfold replace_word, case_transfer. rewrite Hm.
  unfold str.isupper, str.istitle. fold (chars run).
  rewrite isupper_alpha by done.
  destruct (forallb str.isupper_char (chars run)); [done |].
  destruct (chars run) as [| c l]; [done |].
  rewrite istitle_alpha by done.
  destruct (str.isupper_char c && forallb str.islower_char l);
    [by apply capitalize_lower | done].
Qed.

Lemma replace_word_absent m (run : string) :
  m !! str.lower run = None → replace_word m run = run.
Proof. intros Hm. unfold replace_word. by rewrite Hm. Qed.

Lemma repl_chars_alpha m :
  (∀ k v, m !! k = Some v → Forall alpha (chars v)) →
  ∀ run, Forall alpha run → Forall alpha (repl_chars m run).
Proof.
  intros Hvalues run Hrun. unfold repl_chars, replace_word.
  destruct (m !! _) as [v |] eqn:Hm; [| by rewrite chars_string_of].
  apply Hvalues in Hm.
  destruct (str.isupper _); [| destruct (str.istitle _)]; [| | done].
  - unfold str.upper, chars. rewrite lift_chars. apply Forall_fmap.
    eapply Forall_impl; [done |]. apply isalpha_upper_char.
  - unfold str.capitalize, chars. rewrite lift_chars.
    unfold chars in Hm. destruct (list_ascii_of_string v) as [| c l]; [done |].
    simpl. constructor.
    + apply isalpha_upper_char. by apply Forall_inv in Hm.
    + apply Forall_fmap. eapply Forall_impl; [by eapply Forall_inv_tail |].
      apply isalpha_lower_char.
Qed.

(* the text around a run that is not cut from a neighbouring letter *)
Lemma encrypt_text_content_run pre (run : string) post m :
  alpha_word run →
  ends_without str.isalpha_char (chars pre) →
  starts_without str.isalpha_char (chars post) →
  encrypt_text_content (pre +:+ run +:+ post) m
  = encrypt_text_content pre m
    +:+ (if negb (re.is_word (last (chars pre)))
            && negb (re.is_word (head (chars post)))
         then replace_word m run else run)
    +:+ encrypt_text_content post m.
Proof.
  intros [Hne Hrun] Hpre Hpost. apply chars_inj.
  rewrite !chars_app, !encrypt_text_content_chars, !chars_app.
  rewrite sub_from_app, sub_from_run by done.
  f_equal. f_equal.
  - replace (last_or None (chars pre)) with (last (chars pre))
      by (unfold last_or; by destruct (last (chars pre))).
    destruct (_ && _); [| done].
    unfold repl_chars. by rewrite string_of_chars.
  - by apply sub_from_start.
Qed.
End transformer.

(** ** The claims on the text transformer *)

Section transformer_claims.
Implicit Types (m : gmap string string) (text pre run post v : string).

(** C6 as stated fails: the run ["hello"] of the text ["hello1"] is a key
    of the mapping, and it is emitted as it is, not as its substitute. *)
Lemma run_before_digit_kept :
  alpha_word "hello" ∧
  ({[ "hello"%string := "world"%string ]} : gmap string string)
    !! str.lower "hello" = Some "world"%string ∧
  case_transfer "hello" "world" = "world"%string ∧
  encrypt_text_content ("" +:+ "hello" +:+ "1") {[ "hello"%string := "world"%string ]}
  = "hello1"%string ∧
  encrypt_text_content ("" +:+ "hello" +:+ "1") {[ "hello"%string := "world"%string ]}
  ≠ encrypt_text_content "" {[ "hello"%string := "world"%string ]}
    +:+ case_transfer "hello" "world"
    +:+ encrypt_text_content "1" {[ "hello"%string := "world"%string ]}.
Proof.
  split; [split; [done | by repeat constructor] |].
  split; [by vm_compute |]. split; [by vm_compute |].
  split; [by vm_compute |]. by vm_compute.
Qed.

(** C6, amended.  In ASCII text and with a mapping whose substitutes are
    ASCII, for a run of letters that has no word character (letter, digit
    or underscore) on either side and whose lower-case form is a key of the
    mapping, with a substitute in lower case, the transformer emits the
    substitute with the case pattern of the run: all in upper case for a
    run all in upper case, first character in upper case for a run in title
    case, in lower case otherwise; the three examples of the claim; and a
    run of letters next to a digit or an underscore is emitted as it is. *)
Theorem case_transfer_on_match :
  (∀ pre run post m v,
     str.isascii pre = true → str.isascii post = true →
     (∀ k x, m !! k = Some x → str.isascii x = true) →
     alpha_word run →
     ends_without re.is_word_char (chars pre) →
     starts_without re.is_word_char (chars post) →
     m !! str.lower run = Some v → str.lower v = v →
     encrypt_text_content (pre +:+ run +:+ post) m
     = encrypt_text_content pre m +:+ case_transfer run v
       +:+ encrypt_text_content post m) ∧
  (encrypt_text_content "HELLO" {[ "hello"%string := "world"%string ]}
   = "WORLD"%string ∧
   encrypt_text_content "Hello" {[ "hello"%string := "world"%string ]}
   = "World"%string ∧
   encrypt_text_content "hello" {[ "hello"%string := "world"%string ]}
   = "world"%string) ∧
  (∀ pre run post m,
     str.isascii pre = true → str.isascii post = true →
     (∀ k x, m !! k = Some x → str.isascii x = true) →
     alpha_word run →
     ends_without str.isalpha_char (chars pre) →
     starts_without str.isalpha_char (chars post) →
     re.is_word (last (chars pre)) = true ∨ re.is_word (head (chars post)) = true →
     encrypt_text_content (pre +:+ run +:+ post) m
     = encrypt_text_content pre m +:+ run +:+ encrypt_text_content post m).
Proof.
  split; [| split; [by vm_compute |]].
  2:{ intros pre run post m _ _ _ Hrun Hpre Hpost Hword.
      rewrite encrypt_text_content_run by done.
      by destruct Hword as [-> | ->]; rewrite ?andb_false_r. }
  intros pre run post m v _ _ _ Hrun Hpre Hpost Hm Hv.
  assert (re.is_word (last (chars pre)) = false) as Hb1
    by (unfold ends_without in Hpre; by destruct (last (chars pre))).
  assert (re.is_word (head (chars post)) = false) as Hb2
    by (unfold starts_without in Hpost; by destruct (head (chars post))).
  rewrite encrypt_text_content_run; [| done | |].
  - rewrite Hb1, Hb2. simpl. by rewrite (replace_word_present m run v).
  - unfold ends_without in *. destruct (last (chars pre)) as [c |]; [| done].
    unfold re.is_word_char in Hpre. by destruct (str.isalpha_char c).
  - unfold starts_without in *. destruct (head (chars post)) as [c |]; [| done].
    unfold re.is_word_char in Hpost. by destruct (str.isalpha_char c).
Qed.

Lemma case_transfer_on_match_witness :
  encrypt_text_content ("say, " +:+ "Hello" +:+ "!")
    {[ "hello"%string := "world"%string ]}
  = encrypt_text_content "say, " {[ "hello"%string := "world"%string ]}
    +:+ case_transfer "Hello" "world"
    +:+ encrypt_text_content "!" {[ "hello"%string := "world"%string ]} ∧
  encrypt_text_content ("say " +:+ "Hello" +:+ "2!")
    {[ "hello"%string := "world"%string ]}
  = encrypt_text_content "say " {[ "hello"%string := "world"%string ]}
    +:+ "Hello"
    +:+ encrypt_text_content "2!" {[ "hello"%string := "world"%string ]}.
Proof.
  split.
  - apply (proj1 case_transfer_on_match).
    + reflexivity.
    + reflexivity.
    + by intros k x [_ <-]%lookup_singleton_Some.
    + split; [done | by repeat constructor].
    + reflexivity.
    + reflexivity.
    + reflexivity.
    + reflexivity.
  - apply (proj2 (proj2 case_transfer_on_match)).
    + reflexivity.
    + reflexivity.
    + by intros k x [_ <-]%lookup_singleton_Some.
    + split; [done | by repeat constructor].
    + reflexivity.
    + reflexivity.
    + by right.
Defined.

(** C7.  The characters that are no letters pass through unchanged and in
    their order (for a mapping whose substitutes are made of letters); a run
    of letters whose lower-case form is no key of the mapping is emitted as
    it is; a text without a letter is returned as it is; and the example of
    the claim. *)
Theorem others_pass_through :
  (∀ text m,
     (∀ k v, m !! k = Some v →
             Forall (λ c, str.isalpha_char c = true) (chars v)) →
     filter (λ c, str.isalpha_char c = false) (chars (encrypt_text_content text m))
     = filter (λ c, str.isalpha_char c = false) (chars text)) ∧
  (∀ pre run post m,
     alpha_word run →
     ends_without str.isalpha_char (chars pre) →
     starts_without str.isalpha_char (chars post) →
     m !! str.lower run = None →
     encrypt_text_content (pre +:+ run +:+ post) m
     = encrypt_text_content pre m +:+ run +:+ encrypt_text_content post m) ∧
  (∀ text m,
     Forall (λ c, str.isalpha_char c = false) (chars text) →
     encrypt_text_content text m = text) ∧
  encrypt_text_content "hello, world!" {[ "hello"%string := "foo"%string ]}
  = "foo, world!"%string.
Proof.
  split; [| split; [| split]].
  - intros text m Hvalues. rewrite encrypt_text_content_chars.
    rewrite sub_from_others; [done | by apply repl_chars_alpha | done].
  - intros pre run post m Hrun Hpre Hpost Hm.
    rewrite encrypt_text_content_run by done.
    rewrite (replace_word_absent m run Hm). by destruct (_ && _).
  - intros text m Htext. apply chars_inj.
    by rewrite encrypt_text_content_chars, sub_from_no_alpha.
  - by vm_compute.
Qed.

Lemma others_pass_through_witness :
  filter (λ c, str.isalpha_char c = false)
    (chars (encrypt_text_content "hello, world 42!"
              {[ "hello"%string := "foo"%string ]}))
  = filter (λ c, str.isalpha_char c = false) (chars "hello, world 42!") ∧
  encrypt_text_content ("hello, " +:+ "world" +:+ " 42!")
    {[ "hello"%string := "foo"%string ]}
  = encrypt_text_content "hello, " {[ "hello"%string := "foo"%string ]}
    +:+ "world"
    +:+ encrypt_text_content " 42!" {[ "hello"%string := "foo"%string ]} ∧
  encrypt_text_content "12 + 30 = 42" {[ "hello"%string := "foo"%string ]}
  = "12 + 30 = 42"%string.
Proof.
  destruct others_pass_through as (Hothers & Habsent & Hnone & _).
  split; [| split].
  - apply Hothers. intros k v [_ <-]%lookup_singleton_Some.
    by repeat constructor.
  - apply Habsent.
    + split; [done | by repeat constructor].
    + reflexivity.
    + reflexivity.
    + reflexivity.
  - apply Hnone. by repeat constructor.
Defined.
End transformer_claims.

(** ** The loops end within their budget *)

Section budget.
Implicit Types (s : HashMapper) (w : string) (b : nat).

Lemma insert_probe_budget b s o idx p :
  (Z.to_nat (table_size s - p) < b)%nat →
  insert_probe b s o idx p ≠ Raise LoopBudgetExhausted.
Proof.
  revert idx p. induction b as [| b IH]; intros idx p Hb; [lia |].
  simpl. destruct (py_getitem (table s) idx) as [[v |] | e] eqn:Hget; simpl.
  - unfold py_mod. destruct (table_size s =? 0); simpl; [done |].
    destruct (Z.geb_spec (p + 1) (table_size s)); [done |].
    apply IH. lia.
  - done.
  - unfold py_getitem in Hget. destruct (_ && _); [| congruence].
    destruct (table s !! _); congruence.
Qed.

Lemma find_loop_budget b s w step start idx attempts :
  (Z.to_nat (table_size s - attempts) ≤ b)%nat →
  find_loop b s w step start idx attempts ≠ Raise LoopBudgetExhausted.
Proof.
  revert idx attempts. induction b as [| b IH]; intros idx attempts Hb; simpl.
  - destruct (Z.ltb_spec attempts (table_size s)); [lia | done].
  - destruct (Z.ltb_spec attempts (table_size s)); [| done].
    destruct (py_getitem (table s) idx) as [slot | e] eqn:Hget; simpl.
    + destruct (is_substitute slot w); [done |].
      unfold py_mod. destruct (table_size s =? 0); simpl; [done |].
      destruct (_ =? start); [done |]. apply IH. lia.
    + unfold py_getitem in Hget. destruct (_ && _); [| congruence].
      destruct (table s !! _); congruence.
Qed.

(* no call answers with the budget exception of the embedding *)
Lemma insert_within_budget w s : (insert w s).1 ≠ Raise LoopBudgetExhausted.
Proof.
  unfold insert. destruct (word_to_index s !! w); [done |].
  unfold _compute_hash, py_mod. destruct (table_size s =? 0); [done |].
  cbn [bind].
  pose proof (insert_probe_budget (insert_budget s) s
                (int_hash w mod table_size s) (int_hash w mod table_size s) 0)
    as Hprobe.
  destruct (insert_probe _ _ _ _ _) as [i | e]; cbn [bind].
  - unfold py_setitem. by destruct (_ && _).
  - simpl. intros [= ->]. apply Hprobe; [unfold insert_budget; lia | done].
Qed.

Lemma find_encrypted_word_within_budget w s :
  find_encrypted_word w s ≠ Raise LoopBudgetExhausted.
Proof.
  unfold find_encrypted_word. destruct (word_to_index s !! _); [| done].
  unfold _compute_hash, _compute_step, py_mod at 1.
  destruct (table_size s =? 0) eqn:H0; [done |]. cbn [bind].
  unfold py_floordiv. rewrite H0. cbn [bind].
  unfold py_mod at 1. destruct (table_size s - 1 =? 0); [done |]. cbn [bind].
  unfold py_mod. rewrite H0. cbn [bind].
  apply find_loop_budget. lia.
Qed.
End budget.


(** * Further properties *)

(** ** Lower case and trimming *)

Section normal_form.
Implicit Types (l : list ascii) (c : ascii) (w : string).

Lemma isspace_lower_char c :
  str.isspace_char (str.lower_char c) = str.isspace_char c.
Proof. by destruct c as [[] [] [] [] [] [] [] []]. Qed.

Lemma lower_char_idemp c : str.lower_char (str.lower_char c) = str.lower_char c.
Proof. by destruct c as [[] [] [] [] [] [] [] []]. Qed.

Lemma lstrip_chars_map l :
  str.lstrip_chars (map str.lower_char l) = map str.lower_char (str.lstrip_chars l).
Proof.
  induction l as [| c l IH]; simpl; [done |].
  rewrite isspace_lower_char. by destruct (str.isspace_char c).
Qed.

Lemma strip_chars_map l :
  str.strip_chars (map str.lower_char l) = map str.lower_char (str.strip_chars l).
Proof.
  unfold str.strip_chars, str.rstrip_chars.
  by rewrite lstrip_chars_map, <- map_rev, lstrip_chars_map, map_rev.
Qed.

Lemma lstrip_chars_idemp l :
  str.lstrip_chars (str.lstrip_chars l) = str.lstrip_chars l.
Proof.
  induction l as [| c l IH]; simpl; [done |].
  destruct (str.isspace_char c) eqn:Hc; [done |]. simpl. by rewrite Hc.
Qed.

(* what lstrip leaves starts with no blank *)
Lemma lstrip_chars_head l : starts_without str.isspace_char (str.lstrip_chars l).
Proof.
  induction l as [| c l IH]; simpl; [done |].
  by destruct (str.isspace_char c) eqn:Hc.
Qed.

Lemma lstrip_chars_fixed l :
  starts_without str.isspace_char l → str.lstrip_chars l = l.
Proof. destruct l as [| c l]; [done |]. unfold starts_without. simpl. by intros ->. Qed.

Lemma lstrip_chars_snoc l c :
  str.isspace_char c = false → ∃ l', str.lstrip_chars (l ++ [c]) = l' ++ [c].
Proof.
  intros Hc. induction l as [| d l IH]; simpl.
  - rewrite Hc. by exists [].
  - destruct (str.isspace_char d); [done |]. by exists (d :: l).
Qed.

(* rstrip keeps a text that starts with no blank in that state *)
Lemma rstrip_chars_head l :
  starts_without str.isspace_char l →
  starts_without str.isspace_char (str.rstrip_chars l).
Proof.
  destruct l as [| c l]; [done |]. unfold starts_without at 1. simpl. intros Hc.
  unfold str.rstrip_chars. simpl.
  destruct (lstrip_chars_snoc (rev l) c Hc) as [l' ->].
  rewrite rev_app_distr. by simpl.
Qed.

Lemma strip_chars_idemp l :
  str.strip_chars (str.strip_chars l) = str.strip_chars l.
Proof.
  unfold str.strip_chars.
  rewrite (lstrip_chars_fixed (str.rstrip_chars _))
    by apply rstrip_chars_head, lstrip_chars_head.
  unfold str.rstrip_chars. by rewrite rev_involutive, lstrip_chars_idemp.
Qed.

(* [w.strip().lower()], of insert_words, is [w.lower().strip()], of
   find_encrypted_word *)
Lemma lower_strip w : str.lower (str.strip w) = str.strip (str.lower w).
Proof.
  unfold str.lower, str.strip, str.lift.
  by rewrite !list_ascii_of_string_of_list_ascii, strip_chars_map.
Qed.

Lemma lower_idemp w : str.lower (str.lower w) = str.lower w.
Proof.
  unfold str.lower, str.lift. rewrite list_ascii_of_string_of_list_ascii.
  f_equal. rewrite map_map. apply map_ext. intros c. apply lower_char_idemp.
Qed.

Lemma strip_idemp w : str.strip (str.strip w) = str.strip w.
Proof.
  unfold str.strip, str.lift.
  by rewrite list_ascii_of_string_of_list_ascii, strip_chars_idemp.
Qed.

(* the normal form is a fixed point of the normalisation *)
Lemma normal_form_fixed w :
  str.strip (str.lower (str.lower (str.strip w))) = str.lower (str.strip w).
Proof. by rewrite lower_idemp, <- lower_strip, strip_idemp. Qed.

Lemma truthy_lower w : str.truthy (str.lower w) = str.truthy w.
Proof. by destruct w. Qed.
End normal_form.

(** ** More on insert *)

Section insert_more.
Implicit Types (s : HashMapper) (w : string) (b : nat).

(* the loop stops on the first empty slot of the probe sequence *)
Lemma insert_probe_first b s o p i :
  0 ≤ p < table_size s →
  (∀ j, 0 ≤ j < p →
        ∃ v, table s !! Z.to_nat ((o + j) mod table_size s) = Some (Some v)) →
  insert_probe b s o ((o + p) mod table_size s) p = Return i →
  ∃ k, p ≤ k < table_size s ∧ i = (o + k) mod table_size s ∧
       table s !! Z.to_nat i = Some None ∧
       ∀ j, 0 ≤ j < k →
            ∃ v, table s !! Z.to_nat ((o + j) mod table_size s)
                 = Some (Some v).
Proof.
  revert p. induction b as [| b IH]; intros p Hp Hocc; simpl.
  - destruct (py_getitem (table s) _) as [[v |] |] eqn:Hget; simpl; try done.
    intros [= <-]. exists p. split; [lia |]. split; [done |]. split; [| done].
    apply py_getitem_inv; [apply Z.mod_pos_bound; lia | done].
  - destruct (py_getitem (table s) _) as [[v |] |] eqn:Hget; simpl; try done.
    + rewrite py_mod_Return by lia. simpl.
      destruct (Z.geb_spec (p + 1) (table_size s)); [done |].
      intros Hrec. apply IH in Hrec as (k & Hk & Hrest); [| lia |].
      * exists k. split; [lia | done].
      * intros j Hj. destruct (decide (j = p)) as [-> | Hne]; [| apply Hocc; lia].
        exists v. apply py_getitem_inv; [apply Z.mod_pos_bound; lia | done].
    + intros [= <-]. exists p. split; [lia |]. split; [done |]. split; [| done].
      apply py_getitem_inv; [apply Z.mod_pos_bound; lia | done].
Qed.

(** X1.  Linear probing: a call of [insert] that returns for a word that is
    not yet in the table writes the word into the first empty slot of the
    sequence [primary_index], [primary_index + 1], ... (modulo the capacity),
    records that slot in both indexes, and changes nothing else. *)
Theorem insert_first_free n ws w :
  word_to_index (insert_all ws (__init__ n)) !! w = None →
  (insert w (insert_all ws (__init__ n))).1 = Return tt →
  ∃ k, 0 ≤ k < n ∧
       (insert w (insert_all ws (__init__ n))).2
       = stored_at w ((int_hash w mod n + k) mod n) (insert_all ws (__init__ n)) ∧
       table (insert_all ws (__init__ n)) !! Z.to_nat ((int_hash w mod n + k) mod n)
       = Some None ∧
       ∀ j, 0 ≤ j < k →
            ∃ v, table (insert_all ws (__init__ n))
                   !! Z.to_nat ((int_hash w mod n + j) mod n) = Some (Some v).
Proof.
  pose proof (wf_insert_all ws _ (wf_init n)) as Hwf.
  pose proof (table_size_insert_all ws _ (wf_init n)) as Hsize.
  set (s := insert_all ws (__init__ n)) in *. simpl in Hsize.
  intros Hnew Hret.
  destruct (insert w s) as [r s'] eqn:Hins. simpl in Hret. subst r.
  pose proof Hins as Hins'.
  apply insert_inv in Hins' as [-> | (_ & _ & i & Hi & Hnone & ->)]; [| | done].
  { pose proof (insert_Return_stored w s) as Hstored.
    rewrite Hins in Hstored. simpl in Hstored.
    destruct Hstored as [? ?]; [done | congruence]. }
  unfold insert, _compute_hash in Hins. rewrite Hnew in Hins.
  rewrite py_mod_Return in Hins by lia. cbn [bind] in Hins.
  destruct (insert_probe _ s _ _ 0) as [i' |] eqn:Hprobe; cbn [bind] in Hins;
    [| done].
  pose proof Hprobe as Hprobe'.
  apply insert_probe_inv in Hprobe' as [Hi' Hnone']; [| apply Z.mod_pos_bound; lia].
  rewrite py_setitem_Return in Hins; [| lia | by eapply lookup_lt_Some].
  cbn [bind] in Hins. injection Hins as Htable Hw2i Hi2w.
  assert (i' = i) as ->.
  { apply (f_equal (λ m, m !! w)) in Hw2i. rewrite !lookup_insert_eq in Hw2i.
    congruence. }
  pose proof (insert_probe_first (insert_budget s) s
                (int_hash w mod table_size s) 0 i) as Hfirst.
  rewrite Z.add_0_r, Z.mod_mod in Hfirst by lia.
  destruct Hfirst as (k & Hk & -> & Hempty & Hocc); [lia | intros j; lia | done |].
  rewrite Hsize in *. exists k. split; [lia |]. split; [done |]. split; [done |].
  done.
Qed.

Lemma insert_first_free_witness :
  ∃ k, 0 ≤ k < 5 ∧
       (insert "bird" (insert_all ["cat"; "dog"]%string (__init__ 5))).2
       = stored_at "bird" ((int_hash "bird" mod 5 + k) mod 5)
           (insert_all ["cat"; "dog"]%string (__init__ 5)).
Proof.
  destruct (insert_first_free 5 ["cat"; "dog"]%string "bird")
    as (k & Hk & Hstored & _).
  - by vm_compute.
  - by vm_compute.
  - exists k. split; [exact Hk | exact Hstored].
Defined.

(** X2.  In a table of capacity 1 or more, [insert] of a word that is not
    stored returns exactly when some slot is empty, and raises the
    table-full [ValueError] otherwise: the probe sequence misses no free
    slot. *)
Theorem insert_returns_iff_free n ws w :
  1 ≤ n → word_to_index (insert_all ws (__init__ n)) !! w = None →
  ((insert w (insert_all ws (__init__ n))).1 = Return tt ↔
   ∃ j, table (insert_all ws (__init__ n)) !! j = Some None) ∧
  ((insert w (insert_all ws (__init__ n))).1
   = Raise (ValueError table_full_message) ↔
   ¬ ∃ j, table (insert_all ws (__init__ n)) !! j = Some None).
Proof.
  pose proof (wf_insert_all ws _ (wf_init n)) as Hwf.
  pose proof (table_size_insert_all ws _ (wf_init n)) as Hsize.
  set (s := insert_all ws (__init__ n)) in *. simpl in Hsize.
  intros Hn Hnew.
  assert ((∃ j, table s !! j = Some None) → (insert w s).1 = Return tt) as Hfree.
  { intros Hj. destruct (insert_Return w s) as (i & _ & _ & ->); [done | lia | done ..]. }
  assert ((¬ ∃ j, table s !! j = Some None) →
          insert w s = (Raise (ValueError table_full_message), s)) as Hfull.
  { intros Hno. apply insert_full; [lia | done |]. intros k Hk.
    destruct (lookup_lt_is_Some_2 (table s)
                (Z.to_nat ((int_hash w mod table_size s + k) mod table_size s)))
      as [[v |] Hx]; [| eauto | destruct Hno; eauto].
    rewrite (wf_length s Hwf).
    pose proof (Z.mod_pos_bound (int_hash w mod table_size s + k) (table_size s)).
    lia. }
  destruct (decide (None ∈ table s)) as [[j Hj]%list_elem_of_lookup | Hno].
  - split; split; try by eauto.
    + intros Hraise. rewrite Hfree in Hraise by eauto. done.
    + intros Hno. destruct Hno. eauto.
  - assert (¬ ∃ j, table s !! j = Some None) as Hno'.
    { intros [j Hj]. apply Hno. apply list_elem_of_lookup. eauto. }
    split; split; try done.
    + intros Hret. rewrite Hfull in Hret by done. done.
    + intros _. by rewrite Hfull.
Qed.

Lemma insert_returns_iff_free_witness :
  (insert "bird" (insert_all ["cat"; "dog"]%string (__init__ 2))).1
  = Raise (ValueError table_full_message) ↔
  ¬ ∃ j, table (insert_all ["cat"; "dog"]%string (__init__ 2)) !! j = Some None.
Proof.
  apply (insert_returns_iff_free 2 ["cat"; "dog"]%string "bird");
    [lia | by vm_compute].
Defined.
End insert_more.

(** ** Tables without slots, and the statistics *)

Section table_counts.
Implicit Types (s : HashMapper) (w : string).

(** X3.  A table constructed with a capacity below 1 never stores anything:
    every [insert] raises ([ZeroDivisionError] at capacity 0, [IndexError]
    below) and leaves the table as constructed, and every
    [find_encrypted_word] returns [None]. *)
Theorem no_slot_table n ws w :
  n ≤ 0 →
  insert w (__init__ n)
  = (Raise (if n =? 0 then ZeroDivisionError else IndexError), __init__ n) ∧
  insert_all ws (__init__ n) = __init__ n ∧
  find_encrypted_word w (insert_all ws (__init__ n)) = Return None.
Proof.
  intros Hn.
  assert (∀ x, insert x (__init__ n)
               = (Raise (if n =? 0 then ZeroDivisionError else IndexError),
                  __init__ n)) as Hins.
  { intros x. unfold insert, _compute_hash, py_mod.
    cbn [word_to_index table_size __init__]. rewrite lookup_empty.
    destruct (Z.eqb_spec n 0) as [-> | Hne]; [done |].
    cbn [bind]. rewrite insert_probe_nil; [done |].
    cbn [table __init__]. by replace (Z.to_nat n) with 0%nat by lia. }
  assert (insert_all ws (__init__ n) = __init__ n) as Hall.
  { induction ws as [| x ws IH]; [done |]. simpl. by rewrite Hins. }
  split; [done |]. split; [done |]. rewrite Hall.
  apply find_encrypted_word_absent. simpl. apply lookup_empty.
Qed.

Lemma no_slot_table_witness :
  insert "cat" (__init__ 0) = (Raise ZeroDivisionError, __init__ 0) ∧
  insert_all ["cat"; "dog"]%string (__init__ 0) = __init__ 0 ∧
  find_encrypted_word "cat" (insert_all ["cat"; "dog"]%string (__init__ 0))
  = Return None.
Proof. apply (no_slot_table 0 ["cat"; "dog"]%string "cat"). lia. Defined.

Lemma counted_insert w s : wf s → counted s → counted (insert w s).2.
Proof.
  intros Hwf [Hfill Hsize]. destruct (insert w s) as [r s'] eqn:Hins.
  destruct (insert_inv _ _ _ _ Hwf Hins) as [-> | (_ & Hw & i & Hi & Hnone & ->)];
    [done |].
  assert (index_to_word s !! i = None) as Hfree.
  { destruct (index_to_word s !! i) as [v |] eqn:Hv; [| done].
    apply (wf_index_to_word s Hwf), (wf_word_to_index s Hwf) in Hv as [_ Hv].
    congruence. }
  unfold counted. simpl. rewrite filled_stored_at by done.
  rewrite !map_size_insert_None by done. lia.
Qed.

Lemma counted_insert_all ws s : wf s → counted s → counted (insert_all ws s).
Proof.
  revert s. induction ws as [| w ws IH]; intros s Hwf Hc; [done |].
  simpl. apply IH; [by apply wf_insert | by apply counted_insert].
Qed.

(** X4.  The statistics of a table agree: the number of filled slots (slots
    that are not [None]) is the number of keys of [word_to_index] and of
    [index_to_word], and it never exceeds the capacity. *)
Theorem statistics_agree n ws :
  filled_slots (insert_all ws (__init__ n))
  = size (word_to_index (insert_all ws (__init__ n))) ∧
  size (word_to_index (insert_all ws (__init__ n)))
  = size (index_to_word (insert_all ws (__init__ n))) ∧
  (filled_slots (insert_all ws (__init__ n)) ≤ Z.to_nat n)%nat.
Proof.
  pose proof (wf_insert_all ws _ (wf_init n)) as Hwf.
  pose proof (table_size_insert_all ws _ (wf_init n)) as Hsize.
  destruct (counted_insert_all ws (__init__ n)) as [Hfill Hmaps].
  { apply wf_init. }
  { split; [by rewrite filled_slots_init | done]. }
  split; [done |]. split; [done |]. simpl in Hsize.
  pose proof (wf_length _ Hwf) as Hlen. rewrite Hsize in Hlen.
  unfold filled_slots. rewrite <- Hlen. apply length_filter.
Qed.
End table_counts.


(** ** What a sequence of calls of insert stores *)

Section stored_words.
Implicit Types (s : HashMapper) (w : string).

Lemma stored_word_to_index s w :
  wf s → (∃ j, table s !! j = Some (Some w)) ↔ is_Some (word_to_index s !! w).
Proof.
  intros Hwf. split.
  - intros [j Hj]. exists (Z.of_nat j). apply (wf_word_to_index s Hwf).
    rewrite Nat2Z.id. split; [lia | done].
  - intros [i [_ Hi]%(wf_word_to_index s Hwf)]. eauto.
Qed.

(* a key of word_to_index was put there by a call that returned *)
Lemma word_to_index_inserted ws s0 w :
  wf s0 → word_to_index s0 !! w = None →
  is_Some (word_to_index (insert_all ws s0) !! w) → inserted w ws s0.
Proof.
  intros Hwf0 Hnew. induction ws as [| x ws IH] using rev_ind.
  { simpl. rewrite Hnew. by intros [? ?]. }
  rewrite insert_all_app. simpl. intros Hstored.
  destruct (word_to_index (insert_all ws s0) !! w) as [i |] eqn:Hw.
  - destruct IH as (before & after & -> & Hret); [eauto |].
    exists before, (after ++ [x]). split; [by rewrite <- app_assoc | done].
  - pose proof (wf_insert_all ws s0 Hwf0) as Hwf.
    destruct (insert x (insert_all ws s0)) as [r s'] eqn:Hins.
    pose proof Hins as Hins'.
    apply insert_inv in Hins' as [-> | (-> & Hx & j & _ & _ & ->)]; [| | done].
    + simpl in Hstored. rewrite Hw in Hstored. by destruct Hstored.
    + simpl in Hstored. destruct (decide (x = w)) as [-> | Hne].
      * exists ws, []. split; [done |]. by rewrite Hins.
      * rewrite lookup_insert_ne, Hw in Hstored by done. by destruct Hstored.
Qed.

(** X5.  After a sequence of [insert] calls on a fresh table, a word is in a
    slot exactly when one of the calls was made for that word and
    returned. *)
Theorem stored_iff_inserted n ws w :
  (∃ j, table (insert_all ws (__init__ n)) !! j = Some (Some w)) ↔
  inserted w ws (__init__ n).
Proof.
  pose proof (wf_insert_all ws _ (wf_init n)) as Hwf.
  rewrite (stored_word_to_index _ _ Hwf). split.
  - apply word_to_index_inserted; [apply wf_init | apply lookup_empty].
  - apply inserted_stored, wf_init.
Qed.

(* while the words still to come fit, every call returns *)
Lemma insert_all_fit ws s :
  wf s → 1 ≤ table_size s → counted s →
  (size (dom (word_to_index s) ∪ list_to_set ws) ≤ Z.to_nat (table_size s))%nat →
  Forall (λ r, r = Return tt) (insert_outcomes ws s).
Proof.
  revert s. induction ws as [| w ws IH]; intros s Hwf Hn Hcount Hfit; [done |].
  simpl.
  assert ((insert w s).1 = Return tt) as Hret.
  { destruct (word_to_index s !! w) as [i |] eqn:Hw.
    - unfold insert. by rewrite Hw.
    - destruct (insert_Return w s) as (i & _ & _ & ->); [done .. | | done].
      apply filled_lt_empty. destruct Hcount as [Hfill _].
      unfold filled_slots in Hfill. rewrite Hfill, (wf_length s Hwf).
      rewrite <- size_dom.
      assert (size (dom (word_to_index s))
              < size (dom (word_to_index s) ∪ list_to_set (w :: ws)))%nat; [| lia].
      apply subset_size. apply not_elem_of_dom in Hw. set_solver. }
  constructor; [done |].
  apply IH.
  - by apply wf_insert.
  - by rewrite table_size_insert.
  - by apply counted_insert.
  - rewrite table_size_insert by done.
    etrans; [| exact Hfit]. apply subseteq_size.
    destruct (insert w s) as [r s'] eqn:Hins.
    destruct (insert_inv _ _ _ _ Hwf Hins) as [-> | (_ & _ & i & _ & _ & ->)];
      simpl; [set_solver |].
    rewrite dom_insert_L. set_solver.
Qed.

(** X6.  While the number of distinct words does not exceed the capacity
    (1 or more), no [insert] raises: every call of the sequence returns, and
    every word of the sequence is in a slot afterwards. *)
Theorem distinct_words_fit n ws :
  1 ≤ n → (size (list_to_set ws : gset string) ≤ Z.to_nat n)%nat →
  Forall (λ r, r = Return tt) (insert_outcomes ws (__init__ n)) ∧
  ∀ w, w ∈ ws → ∃ j, table (insert_all ws (__init__ n)) !! j = Some (Some w).
Proof.
  intros Hn Hfit.
  assert (Forall (λ r, r = Return tt) (insert_outcomes ws (__init__ n))) as Hall.
  { apply insert_all_fit; [apply wf_init | done | | ].
    - split; [by rewrite filled_slots_init | done].
    - simpl. by rewrite dom_empty_L, (left_id_L ∅ (∪)). }
  split; [done |]. intros w Hw.
  pose proof (wf_insert_all ws _ (wf_init n)) as Hwf.
  apply (stored_word_to_index _ _ Hwf), inserted_stored; [apply wf_init |].
  apply list_elem_of_split in Hw as (before & after & ->).
  exists before, after. split; [done |].
  rewrite insert_outcomes_app in Hall. apply Forall_app in Hall as [_ Hall].
  simpl in Hall. by apply Forall_inv in Hall.
Qed.

Lemma distinct_words_fit_witness :
  Forall (λ r, r = Return tt)
    (insert_outcomes ["cat"; "dog"; "cat"; "dog"; "cat"]%string (__init__ 2)).
Proof.
  apply (distinct_words_fit 2 ["cat"; "dog"; "cat"; "dog"; "cat"]%string);
    [lia | by vm_compute].
Defined.
End stored_words.

(** ** insert_words *)

Section insert_words_props.
Implicit Types (s : HashMapper) (w v : string).

Lemma elem_of_dictionary_words v ws :
  v ∈ dictionary_words ws ↔
  ∃ w, w ∈ ws ∧ str.truthy w && str.truthy (str.strip w) = true ∧
       v = str.lower (str.strip w).
Proof.
  induction ws as [| x ws IH]; simpl.
  { split; [by intros ?%elem_of_nil | by intros (w & ?%elem_of_nil & _)]. }
  destruct (str.truthy x && str.truthy (str.strip x)) eqn:Hx.
  - rewrite elem_of_cons, IH. split.
    + intros [-> | (w & Hw & Hrest)].
      * exists x. split; [by left | done].
      * exists w. split; [by right | done].
    + intros (w & [-> | Hw]%elem_of_cons & Hrest); [left; by destruct Hrest |].
      right. eauto.
  - rewrite IH. split.
    + intros (w & Hw & Hrest). exists w. split; [by right | done].
    + intros (w & [-> | Hw]%elem_of_cons & Hb & Hrest); [congruence | eauto].
Qed.

(* the calls that insert_words has made: those of dictionary_words, up to
   the first that raises *)
Lemma insert_words_calls ws s :
  ∃ calls,
    calls `prefix_of` dictionary_words ws ∧
    (insert_words ws s).2 = insert_all calls s ∧
    ((insert_words ws s).1 = Return tt →
     calls = dictionary_words ws ∧
     Forall (λ r, r = Return tt) (insert_outcomes calls s)).
Proof.
  revert s. induction ws as [| x ws IH]; intros s; simpl.
  { exists []. by repeat split. }
  destruct (str.truthy x && str.truthy (str.strip x)); [| apply IH].
  destruct (insert (str.lower (str.strip x)) s) as [[[] | e] s'] eqn:Hins.
  - destruct (IH s') as (calls & Hpre & Hstate & Hret).
    exists (str.lower (str.strip x) :: calls). split; [by apply prefix_cons |].
    split; [simpl; by rewrite Hins |].
    intros [-> Hall]%Hret. split; [done |]. simpl. rewrite Hins.
    by constructor.
  - exists [str.lower (str.strip x)]. split.
    + by exists (dictionary_words ws).
    + split; [simpl; by rewrite Hins | done].
Qed.

Lemma truthy_strip w : str.truthy (str.strip w) = true → str.truthy w = true.
Proof. by destruct w. Qed.

(** X7.  When [insert_words] returns on a fresh table, for a list of
    entries of ASCII characters, it has made the calls
    of [insert] for the lower-cased, trimmed form of every entry that is not
    blank, in order, and each such form is a key of [word_to_index]: the
    membership test of [find_encrypted_word], which trims after lower-casing
    where [insert_words] lower-cases after trimming, succeeds for every such
    entry. *)
Theorem insert_words_stores n ws :
  Forall (λ w, str.isascii w = true) ws →
  (insert_words ws (__init__ n)).1 = Return tt →
  (insert_words ws (__init__ n)).2 = insert_all (dictionary_words ws) (__init__ n) ∧
  ∀ w, w ∈ ws → str.truthy (str.strip w) = true →
       is_Some (word_to_index (insert_words ws (__init__ n)).2
                  !! str.strip (str.lower w)).
Proof.
  intros _ Hret.
  destruct (insert_words_calls ws (__init__ n)) as (calls & _ & Hstate & Hall).
  destruct (Hall Hret) as [-> Houtcomes]. split; [done |].
  intros w Hw Hnonblank. rewrite Hstate, <- lower_strip.
  apply inserted_stored; [apply wf_init |].
  assert (str.lower (str.strip w) ∈ dictionary_words ws) as Hin.
  { apply elem_of_dictionary_words. exists w. split; [done |]. split; [| done].
    by rewrite Hnonblank, (truthy_strip w). }
  apply list_elem_of_split in Hin as (before & after & Hsplit).
  exists before, after. split; [done |].
  rewrite Hsplit, insert_outcomes_app in Houtcomes.
  apply Forall_app in Houtcomes as [_ Houtcomes].
  simpl in Houtcomes. by apply Forall_inv in Houtcomes.
Qed.

Lemma insert_words_stores_witness :
  is_Some (word_to_index
             (insert_words ["  Cat "; ""; "DOG"; "   "]%string (__init__ 5)).2
             !! str.strip (str.lower "  Cat ")).
Proof.
  apply (insert_words_stores 5 ["  Cat "; ""; "DOG"; "   "]%string).
  - by repeat constructor.
  - by vm_compute.
  - by left.
  - reflexivity.
Defined.

(** X8.  For a list of entries of ASCII characters, every word that
    [insert_words] has put into a fresh table, whether the call returned or
    raised, is the lower-cased, trimmed form of an
    entry of the list; it is not empty and it is its own normal form, so
    [find_encrypted_word] looks it up under the key it is stored with. *)
Theorem insert_words_normalised n ws j v :
  Forall (λ w, str.isascii w = true) ws →
  table (insert_words ws (__init__ n)).2 !! j = Some (Some v) →
  (∃ w, w ∈ ws ∧ v = str.lower (str.strip w)) ∧
  str.truthy v = true ∧ str.strip (str.lower v) = v.
Proof.
  intros _ Hj.
  destruct (insert_words_calls ws (__init__ n)) as (calls & Hpre & Hstate & _).
  rewrite Hstate in Hj.
  assert (is_Some (word_to_index (insert_all calls (__init__ n)) !! v)) as [i Hi].
  { apply stored_word_to_index; [apply wf_insert_all, wf_init | eauto]. }
  apply word_to_index_insert_all in Hi as [Hi | Hi]; [| | apply wf_init].
  { simpl in Hi. by rewrite lookup_empty in Hi. }
  assert (v ∈ dictionary_words ws) as Hv
    by (destruct Hpre as [rest ->]; apply elem_of_app; by left).
  apply elem_of_dictionary_words in Hv as (w & Hw & Hb & ->).
  apply andb_prop in Hb as [_ Hb].
  split; [eauto |]. split; [by rewrite truthy_lower | apply normal_form_fixed].
Qed.

Lemma insert_words_normalised_witness :
  (∃ w, w ∈ ["  Cat "; ""; "DOG"; "   "]%string
        ∧ "cat"%string = str.lower (str.strip w)) ∧
  str.truthy "cat" = true ∧ str.strip (str.lower "cat") = "cat"%string.
Proof.
  apply (insert_words_normalised 5 ["  Cat "; ""; "DOG"; "   "]%string 1 "cat").
  - by repeat constructor.
  - by vm_compute.
Defined.
End insert_words_props.

(** ** More on find_encrypted_word *)

Section find_more.
Implicit Types (s : HashMapper) (w v : string).

(** X9.  In a table of capacity 2 or more, [_compute_hash] returns an index
    of the table, [_compute_step] returns a step between 1 and
    [capacity - 1], and so the first slot that [find_encrypted_word] probes
    is never the primary slot of the word. *)
Theorem first_probe_differs s w :
  2 ≤ table_size s →
  ∃ h step,
    _compute_hash s w = Return h ∧ _compute_step s w = Return step ∧
    0 ≤ h < table_size s ∧ 1 ≤ step ≤ table_size s - 1 ∧
    (h + step) mod table_size s ≠ h.
Proof.
  intros Hn. unfold _compute_hash, _compute_step.
  rewrite py_mod_Return, py_floordiv_Return by lia. cbn [bind].
  rewrite py_mod_Return by lia. cbn [bind].
  set (n := table_size s) in *.
  set (h := int_hash w mod n).
  set (step := 1 + (int_hash w / n) mod (n - 1)).
  assert (0 ≤ h < n) by (apply Z.mod_pos_bound; lia).
  assert (0 ≤ (int_hash w / n) mod (n - 1) < n - 1) by (apply Z.mod_pos_bound; lia).
  exists h, step. split; [done |]. split; [done |]. split; [done |].
  split; [unfold step; lia |].
  destruct (Z.lt_ge_cases (h + step) n).
  - rewrite Z.mod_small by (unfold step in *; lia). unfold step. lia.
  - replace (h + step) with (h + step - n + 1 * n) by lia.
    rewrite Z_mod_plus_full, Z.mod_small by (unfold step in *; lia).
    unfold step. lia.
Qed.

Lemma first_probe_differs_witness :
  ∃ h step,
    _compute_hash (__init__ 5) "cat" = Return h ∧
    _compute_step (__init__ 5) "cat" = Return step ∧
    0 ≤ h < 5 ∧ 1 ≤ step ≤ 5 - 1 ∧ (h + step) mod 5 ≠ h.
Proof. apply (first_probe_differs (__init__ 5) "cat"). simpl. lia. Defined.

(** X10.  A word of ASCII characters whose lower-cased, trimmed form was
    never an argument of
    [insert] has no substitute: [find_encrypted_word] returns [None] for it,
    in a table of any capacity, without computing a hash. *)
Theorem find_unknown_word n ws w :
  str.isascii w = true → str.strip (str.lower w) ∉ ws →
  find_encrypted_word w (insert_all ws (__init__ n)) = Return None.
Proof.
  intros _ Hnew. apply find_encrypted_word_absent.
  destruct (word_to_index _ !! _) as [i |] eqn:Hi; [| done].
  apply word_to_index_insert_all in Hi as [Hi | Hi]; [| done | apply wf_init].
  simpl in Hi. by rewrite lookup_empty in Hi.
Qed.

Lemma find_unknown_word_witness :
  find_encrypted_word " Cow " (insert_all ["cat"; "dog"]%string (__init__ 1))
  = Return None.
Proof.
  apply (find_unknown_word 1 ["cat"; "dog"]%string " Cow ").
  - reflexivity.
  - apply (bool_decide_unpack _). by vm_compute.
Defined.

(** X11.  When the table (of a capacity other than 1) holds no word other
    than the normal form of [w], [find_encrypted_word(w)] returns [None]. *)
Theorem find_only_word n ws w :
  n ≠ 1 →
  (∀ j v, table (insert_all ws (__init__ n)) !! j = Some (Some v) →
          v = str.strip (str.lower w)) →
  find_encrypted_word w (insert_all ws (__init__ n)) = Return None.
Proof.
  intros Hn Honly.
  pose proof (wf_insert_all ws _ (wf_init n)) as Hwf.
  pose proof (table_size_insert_all ws _ (wf_init n)) as Hsize. simpl in Hsize.
  destruct (find_encrypted_word_Return w (insert_all ws (__init__ n)))
    as (r & -> & Hr); [done | by rewrite Hsize |].
  destruct r as [v |]; [| done].
  destruct (Hr v eq_refl) as [Hv [j Hj]]. by apply Honly in Hj.
Qed.

Lemma find_only_word_witness :
  find_encrypted_word "Cat" (insert_all ["cat"; "cat"]%string (__init__ 5))
  = Return None.
Proof.
  apply (find_only_word 5 ["cat"; "cat"]%string "Cat"); [lia |].
  intros j v Hj.
  assert (table (insert_all ["cat"; "cat"]%string (__init__ 5))
          = [None; Some "cat"%string; None; None; None]) as Ht by (by vm_compute).
  rewrite Ht in Hj. clear Ht. destruct j as [| [| j]]; simpl in Hj.
  - discriminate Hj.
  - injection Hj as <-. reflexivity.
  - destruct j as [| [| [| j]]]; discriminate Hj.
Defined.
End find_more.

(** ** A step coprime to the capacity *)

Section coprime_step.
Implicit Types (s : HashMapper) (w v : string) (k : nat).

Lemma walk_closed n start step k :
  0 < n → 0 ≤ start < n →
  walk n start step k = (start + Z.of_nat k * step) mod n.
Proof.
  intros Hn Hstart. induction k as [| k IH].
  - simpl. rewrite Z.add_0_r. by rewrite Z.mod_small.
  - cbn [walk]. rewrite IH, Zplus_mod_idemp_l. f_equal. lia.
Qed.

(* a walk with a step coprime to the capacity reaches every slot *)
Lemma walk_reaches n start step t :
  0 < n → 0 ≤ start < n → Z.gcd step n = 1 → 0 ≤ t < n →
  ∃ k, reached n (walk n start step) k ∧ walk n start step k = t.
Proof.
  intros Hn Hstart Hgcd Ht.
  destruct (Z.gcd_bezout step n 1 Hgcd) as (a & b & Hab).
  set (x := (t - start) * a).
  assert (0 ≤ x mod n < n) as Hk by by apply Z.mod_pos_bound.
  exists (Z.to_nat (x mod n)). split; [split |].
  - lia.
  - intros j Hj. rewrite !walk_closed by done. simpl.
    rewrite Z.add_0_r, (Z.mod_small start) by done. intros Hback.
    assert ((n | Z.of_nat j)) as Hdiv.
    { apply (Z.gauss n step); [| by rewrite Z.gcd_comm].
      exists ((start + Z.of_nat j * step) / n).
      pose proof (Z.div_mod (start + Z.of_nat j * step) n). lia. }
    apply Z.divide_pos_le in Hdiv; lia.
  - rewrite walk_closed, Z2Nat.id by lia.
    rewrite (Z.mod_eq x n) by lia.
    replace (start + (x - n * (x / n)) * step)
      with (t + (- (t - start) * b - (x / n) * step) * n)
      by (unfold x; nia).
    rewrite Z_mod_plus_full. by apply Z.mod_small.
Qed.

(** X12.  When the step of a stored word [w] of ASCII characters is coprime to the capacity (as
    every step is for a prime capacity) the walk of the lookup passes every
    slot: if the table holds any other word, [find_encrypted_word(w)]
    returns a substitute. *)
Theorem coprime_step_finds n ws w v :
  2 ≤ n → Z.gcd (probe_step n w) n = 1 →
  str.isascii w = true → str.strip (str.lower w) = w →
  (∃ j, table (insert_all ws (__init__ n)) !! j = Some (Some w)) →
  (∃ j, table (insert_all ws (__init__ n)) !! j = Some (Some v)) → v ≠ w →
  ∃ v', find_encrypted_word w (insert_all ws (__init__ n)) = Return (Some v').
Proof.
  intros Hn Hgcd _ Hnorm Hw [j Hv] Hne.
  pose proof (wf_insert_all ws _ (wf_init n)) as Hwf.
  pose proof (table_size_insert_all ws _ (wf_init n)) as Hsize.
  set (s := insert_all ws (__init__ n)) in *. simpl in Hsize.
  apply (stored_word_to_index s w Hwf) in Hw as [i Hi].
  destruct (find_encrypted_word_stored w s i) as (r & Hr & Hwalk);
    [done | lia | by rewrite Hnorm |].
  destruct r as [v' |]; [eauto |]. exfalso.
  rewrite Hnorm, Hsize in Hwalk. simpl in Hwalk.
  assert (Z.of_nat j < n) as Hj.
  { apply lookup_lt_Some in Hv. rewrite (wf_length s Hwf) in Hv. lia. }
  destruct (walk_reaches n
              ((primary_index n w + probe_step n w) mod n) (probe_step n w)
              (Z.of_nat j)) as (k & Hk & Hat);
    [lia | apply Z.mod_pos_bound; lia | done | lia |].
  specialize (Hwalk k). rewrite Hsize in Hwalk. specialize (Hwalk Hk).
  unfold walk_of in Hwalk. rewrite Hat in Hwalk.
  unfold passed in Hwalk. rewrite Nat2Z.id in Hwalk.
  destruct Hwalk as [Hnone | Hsame]; congruence.
Qed.

Lemma coprime_step_finds_witness :
  ∃ v', find_encrypted_word "fox"
          (insert_all ["cat"; "fox"]%string (__init__ 5)) = Return (Some v').
Proof.
  apply (coprime_step_finds 5 ["cat"; "fox"]%string "fox" "cat").
  - lia.
  - by vm_compute.
  - reflexivity.
  - reflexivity.
  - exists 4%nat. by vm_compute.
  - exists 1%nat. by vm_compute.
  - discriminate.
Defined.
End coprime_step.

(** ** The values of the mapping *)

Section mapping_values.

(** X13.  For input words of ASCII characters, every entry of a map
    returned by [get_encryption_mapping] has as
    key the lower-cased form of an input word and as value the word that
    [find_encrypted_word] returns for that input word: a word that is not
    empty and is in a slot of the table. *)
Theorem mapping_values_stored n ws words m k v :
  Forall (λ w, str.isascii w = true) words →
  get_encryption_mapping words (insert_all ws (__init__ n)) = Return m →
  m !! k = Some v →
  str.truthy v = true ∧
  (∃ j, table (insert_all ws (__init__ n)) !! j = Some (Some v)) ∧
  ∃ w, w ∈ words ∧ k = str.lower w ∧
       find_encrypted_word w (insert_all ws (__init__ n)) = Return (Some v).
Proof.
  intros _ Hm Hk.
  pose proof (wf_insert_all ws _ (wf_init n)) as Hwf.
  apply (get_encryption_mapping_lookup _ _ _ Hm) in Hk as (w & Hw & <- & Hsub).
  unfold substitute in Hsub.
  destruct (find_encrypted_word w _) as [r | e] eqn:Hfind; [| done].
  pose proof (found_substitute_Some _ _ Hsub) as ->.
  simpl in Hsub. destruct (str.truthy v) eqn:Hv; [| done].
  split; [done |]. split; [| eauto].
  by apply find_encrypted_word_Some in Hfind as [_ Hstored].
Qed.

Lemma mapping_values_stored_witness :
  ∃ j, table (insert_all ["cat"; "dog"; "bird"; "fish"; "fox"]%string (__init__ 5))
         !! j = Some (Some "fish"%string).
Proof.
  apply (mapping_values_stored 5 ["cat"; "dog"; "bird"; "fish"; "fox"]%string
           ["Cat"; "cow"]%string {[ "cat"%string := "fish"%string ]}
           "cat" "fish").
  - by repeat constructor.
  - by vm_compute.
  - by vm_compute.
Defined.
End mapping_values.

(** ** More on the scan of re.sub *)

Section scan_more.
Variable repl : list ascii → list ascii.
Implicit Types (l run pre post text : list ascii) (c : ascii)
  (b : option ascii).

Local Abbreviation alpha := (λ c, str.isalpha_char c = true).

(* a function that gives every run back makes the scan the identity *)
Lemma sub_from_id b skip text :
  (∀ run, run ≠ [] → Forall alpha run → repl run = run) →
  re.sub_from repl b skip text = drop skip text.
Proof.
  intros Hrepl. revert b skip.
  induction text as [| c text IH]; intros b skip; [by destruct skip |].
  destruct skip as [| skip]; simpl; [| apply IH].
  destruct (re.match_here b (c :: text)) as [len |] eqn:Hmatch.
  - apply match_here_alpha in Hmatch as [Hlen Halpha].
    destruct len as [| len]; [lia |]. simpl in *.
    rewrite Hrepl, IH, Nat.sub_0_r by done. simpl. by rewrite take_drop.
  - by rewrite (IH _ 0%nat).
Qed.

(* the scan of a text that is cut in front of a character that is no word
   character *)
Lemma sub_from_cut b pre c text :
  re.is_word_char c = false →
  re.sub_from repl b 0 (pre ++ c :: text)
  = re.sub_from repl b 0 pre ++ c :: re.sub_from repl (Some c) 0 text.
Proof.
  intros Hc.
  assert (str.isalpha_char c = false) as Hother.
  { destruct (str.isalpha_char c) eqn:Ha; [| done].
    by rewrite (isalpha_is_word c Ha) in Hc. }
  remember (length pre) as n eqn:Hn. revert b pre Hn.
  induction n as [n IH] using lt_wf_ind. intros b pre ->.
  destruct pre as [| d pre]; [by apply sub_from_other |].
  destruct (str.isalpha_char d) eqn:Hd.
  - destruct (alpha_run_split (d :: pre)) as (post & Hsplit & Hpost).
    pose proof (alpha_run_Forall (d :: pre)) as Hrun.
    assert (re.alpha_run (d :: pre) ≠ []) as Hne by (simpl; by rewrite Hd).
    remember (re.alpha_run (d :: pre)) as run eqn:Hrundef. clear Hrundef.
    assert (length post < length (d :: pre))%nat as Hshort.
    { rewrite Hsplit, length_app. destruct run; [done | simpl; lia]. }
    rewrite Hsplit, <- app_assoc.
    rewrite (sub_from_run repl b run (post ++ c :: text)),
      (sub_from_run repl b run post); [| done | done | done | done | done |].
    2:{ destruct post; [by unfold starts_without; simpl | done]. }
    replace (re.is_word (head (post ++ c :: text))) with (re.is_word (head post))
      by (destruct post; [by simpl; rewrite Hc | done]).
    rewrite <- app_assoc. f_equal.
    by apply (IH (length post)).
  - cbn [app]. rewrite !sub_from_other by done. cbn [app]. f_equal.
    apply (IH (length pre)); [simpl; lia | done].
Qed.

(* the scan looks at the character in front only as a word character or
   not *)
Lemma sub_from_before b b' text :
  re.is_word b = re.is_word b' →
  re.sub_from repl b 0 text = re.sub_from repl b' 0 text.
Proof.
  intros Hb. destruct text as [| c text]; [done |].
  simpl. unfold re.match_here, re.boundary. by rewrite Hb.
Qed.
End scan_more.

(** ** More on encrypt_text_content *)

Section transformer_more.
Implicit Types (m : gmap string string) (text pre run post v : string)
  (c : ascii).

(* the function of encrypt_text_content gives back a run that is no key *)
Lemma repl_chars_no_key m :
  (∀ run, alpha_word run → m !! str.lower run = None) →
  ∀ l : list ascii, l ≠ [] → Forall (λ c, str.isalpha_char c = true) l →
                    repl_chars m l = l.
Proof.
  intros Hno l Hne Hl. unfold repl_chars.
  rewrite replace_word_absent; [apply chars_string_of |].
  apply Hno. split; unfold chars; by rewrite list_ascii_of_string_of_list_ascii.
Qed.

(** X14.  When the lower-case form of no run of letters is a key of the
    mapping, as for the empty mapping, [encrypt_text_content] returns the
    text as it is. *)
Theorem no_key_no_change text m :
  (∀ run, alpha_word run → m !! str.lower run = None) →
  encrypt_text_content text m = text.
Proof.
  intros Hno. apply chars_inj. rewrite encrypt_text_content_chars.
  rewrite sub_from_id; [done |]. by apply repl_chars_no_key.
Qed.

Lemma no_key_no_change_witness :
  encrypt_text_content "Hello, world 42!" ∅ = "Hello, world 42!"%string.
Proof. apply no_key_no_change. intros run _. apply lookup_empty. Defined.

(** X15.  On ASCII text, with ASCII substitutes, [encrypt_text_content]
    can be applied piece by piece: at a character that is no word character (a blank, a line break, a
    punctuation mark) the result for the whole text is the result for the
    text before it, the character, and the result for the text after it. *)
Theorem transform_piecewise pre c post m :
  str.isascii (pre +:+ String c post) = true →
  (∀ k x, m !! k = Some x → str.isascii x = true) →
  re.is_word_char c = false →
  encrypt_text_content (pre +:+ String c post) m
  = encrypt_text_content pre m +:+ String c (encrypt_text_content post m).
Proof.
  intros _ _ Hc. apply chars_inj.
  rewrite chars_app, !encrypt_text_content_chars, chars_app.
  change (chars (String c post)) with (c :: chars post).
  change (chars (String c (encrypt_text_content post m)))
    with (c :: chars (encrypt_text_content post m)).
  rewrite encrypt_text_content_chars, sub_from_cut by done.
  f_equal. f_equal. apply sub_from_before. simpl. by rewrite Hc.
Qed.

Lemma transform_piecewise_witness :
  encrypt_text_content ("Hello" +:+ String "010"%char "hello world")
    {[ "hello"%string := "world"%string ]}
  = encrypt_text_content "Hello" {[ "hello"%string := "world"%string ]}
    +:+ String "010"%char
          (encrypt_text_content "hello world" {[ "hello"%string := "world"%string ]}).
Proof.
  apply transform_piecewise; [reflexivity | | reflexivity].
  by intros k x [_ <-]%lookup_singleton_Some.
Defined.

(** X16.  A run of letters next to a digit or an underscore is emitted as
    it is, whether its lower-case form is a key of the mapping or not. *)
Theorem run_next_to_word_char_kept pre run post m :
  alpha_word run →
  ends_without str.isalpha_char (chars pre) →
  starts_without str.isalpha_char (chars post) →
  re.is_word (last (chars pre)) = true ∨ re.is_word (head (chars post)) = true →
  encrypt_text_content (pre +:+ run +:+ post) m
  = encrypt_text_content pre m +:+ run +:+ encrypt_text_content post m.
Proof.
  intros Hrun Hpre Hpost Hword. rewrite encrypt_text_content_run by done.
  by destruct Hword as [-> | ->]; rewrite ?andb_false_r.
Qed.

Lemma run_next_to_word_char_kept_witness :
  encrypt_text_content ("x_" +:+ "hello" +:+ " y")
    {[ "hello"%string := "world"%string ]}
  = encrypt_text_content "x_" {[ "hello"%string := "world"%string ]}
    +:+ "hello"
    +:+ encrypt_text_content " y" {[ "hello"%string := "world"%string ]}.
Proof.
  apply run_next_to_word_char_kept.
  - split; [done | by repeat constructor].
  - reflexivity.
  - reflexivity.
  - by left.
Defined.

(** X17.  The case rule as the code has it, in ASCII text and with ASCII
    substitutes, for any substitute [v] of a matched run: a run all in upper case gives [v.upper()]; otherwise a run
    whose first letter is upper case and whose other letters are lower case
    gives [v.capitalize()], which also lower-cases the rest of [v]; any
    other run gives [v] as it is stored, not lower-cased. *)
Theorem case_rule_any_substitute pre run post m v :
  str.isascii pre = true → str.isascii post = true →
  (∀ k x, m !! k = Some x → str.isascii x = true) →
  alpha_word run →
  ends_without re.is_word_char (chars pre) →
  starts_without re.is_word_char (chars post) →
  m !! str.lower run = Some v →
  encrypt_text_content (pre +:+ run +:+ post) m
  = encrypt_text_content pre m
    +:+ (if forallb str.isupper_char (chars run) then str.upper v
         else if match chars run with
                 | c :: rest => str.isupper_char c && forallb str.islower_char rest
                 | [] => false
                 end
              then str.capitalize v
              else v)
    +:+ encrypt_text_content post m.
Proof.
  intros _ _ _ Hrun Hpre Hpost Hm.
  assert (re.is_word (last (chars pre)) = false) as Hb1
    by (unfold ends_without in Hpre; by destruct (last (chars pre))).
  assert (re.is_word (head (chars post)) = false) as Hb2
    by (unfold starts_without in Hpost; by destruct (head (chars post))).
  rewrite encrypt_text_content_run; [| done | |].
  - rewrite Hb1, Hb2. simpl. do 2 f_equal.
    destruct Hrun as [Hne Halpha].
    unfold replace_word. rewrite Hm. unfold str.isupper, str.istitle.
    fold (chars run). rewrite isupper_alpha by done.
    destruct (forallb str.isupper_char (chars run)); [done |].
    destruct (chars run) as [| c l]; [done |]. by rewrite istitle_alpha.
  - unfold ends_without in *. destruct (last (chars pre)) as [c |]; [| done].
    unfold re.is_word_char in Hpre. by destruct (str.isalpha_char c).
  - unfold starts_without in *. destruct (head (chars post)) as [c |]; [| done].
    unfold re.is_word_char in Hpost. by destruct (str.isalpha_char c).
Qed.

Lemma case_rule_any_substitute_witness :
  encrypt_text_content ("" +:+ "hELLO" +:+ "!") {[ "hello"%string := "WoRLD"%string ]}
  = "WoRLD!"%string.
Proof.
  rewrite (case_rule_any_substitute "" "hELLO" "!"
             {[ "hello"%string := "WoRLD"%string ]} "WoRLD").
  - reflexivity.
  - reflexivity.
  - reflexivity.
  - by intros k x [_ <-]%lookup_singleton_Some.
  - split; [done | by repeat constructor].
  - reflexivity.
  - reflexivity.
  - reflexivity.
Defined.
End transformer_more.

(** ** The scan of re.findall *)

Section findall_scan.
Implicit Types (l run pre post text : list ascii) (c : ascii)
  (b : option ascii).

Local Abbreviation alpha := (λ c, str.isalpha_char c = true).

Lemma findall_from_skip b l post :
  re.findall_from b (length l) (l ++ post)
  = re.findall_from (last_or b l) 0 post.
Proof.
  revert b. induction l as [| c l IH]; intros b; [done |].
  simpl. by rewrite IH, last_or_cons.
Qed.

Lemma findall_from_other b c text :
  str.isalpha_char c = false →
  re.findall_from b 0 (c :: text) = re.findall_from (Some c) 0 text.
Proof.
  intros Hc. simpl. unfold re.match_here. simpl. rewrite Hc. simpl.
  by destruct (re.boundary b (Some c)).
Qed.

Lemma findall_from_inside b run post :
  Forall alpha run → re.is_word b = true →
  re.findall_from b 0 (run ++ post) = re.findall_from (last_or b run) 0 post.
Proof.
  intros Hrun. revert b. induction Hrun as [| c run Hc _ IH]; intros b Hb; [done |].
  simpl. unfold re.match_here, re.boundary. rewrite Hb. simpl.
  rewrite (isalpha_is_word c Hc). simpl.
  rewrite IH by (simpl; by apply isalpha_is_word).
  by rewrite last_or_cons.
Qed.

(* a whole run is found when it has a [\b] on both sides *)
Lemma findall_from_run b run post :
  run ≠ [] → Forall alpha run → starts_without str.isalpha_char post →
  re.findall_from b 0 (run ++ post)
  = (if negb (re.is_word b) && negb (re.is_word (head post))
     then [run] else [])
    ++ re.findall_from (last run) 0 post.
Proof.
  intros Hne Hrun Hpost. destruct run as [| c run]; [done |].
  pose proof (Forall_inv Hrun) as Hc. simpl in Hc.
  rewrite <- (last_or_nonempty b (c :: run)) by done. rewrite last_or_cons.
  cbn [app re.findall_from]. rewrite match_here_run by done.
  destruct (negb (re.is_word b) && negb (re.is_word (head post))).
  - change (take (S (length run)) (c :: run ++ post))
      with (c :: take (length run) (run ++ post)).
    rewrite take_app_length. simpl. by rewrite Nat.sub_0_r, findall_from_skip.
  - rewrite findall_from_inside; [done | by eapply Forall_inv_tail |].
    simpl. by apply isalpha_is_word.
Qed.

Lemma findall_from_app b pre text :
  ends_without str.isalpha_char pre →
  re.findall_from b 0 (pre ++ text)
  = re.findall_from b 0 pre ++ re.findall_from (last_or b pre) 0 text.
Proof.
  remember (length pre) as n eqn:Hn. revert b pre Hn.
  induction n as [n IH] using lt_wf_ind. intros b pre -> Hend.
  destruct pre as [| c pre]; [done |].
  destruct (str.isalpha_char c) eqn:Hc.
  - destruct (alpha_run_split (c :: pre)) as (post & Hsplit & Hpost).
    pose proof (alpha_run_Forall (c :: pre)) as Hrun.
    assert (re.alpha_run (c :: pre) ≠ []) as Hne by (simpl; by rewrite Hc).
    remember (re.alpha_run (c :: pre)) as run eqn:Hrundef. clear Hrundef.
    assert (post ≠ []) as Hpne.
    { intros ->. rewrite app_nil_r in Hsplit. unfold ends_without in Hend.
      destruct (last (c :: pre)) as [d |] eqn:Hlast; [| by apply last_None in Hlast].
      apply last_Some_elem_of in Hlast. rewrite Hsplit in Hlast.
      rewrite Forall_forall in Hrun. rewrite (Hrun d Hlast) in Hend. done. }
    assert (length post < length (c :: pre))%nat as Hshort.
    { rewrite Hsplit, length_app. destruct run; [done | simpl; lia]. }
    assert (last (c :: pre) = last post) as Hlast.
    { rewrite Hsplit, last_app. destruct (last post) eqn:Hp; [done |].
      by apply last_None in Hp. }
    assert (ends_without str.isalpha_char post) as Hpend
      by (unfold ends_without in *; by rewrite <- Hlast).
    rewrite (last_or_nonempty b (c :: pre)) by done.
    rewrite Hlast, Hsplit, <- app_assoc.
    rewrite (findall_from_run b run (post ++ text)), (findall_from_run b run post);
      [| done | done | done | done | done | by destruct post].
    replace (head (post ++ text)) with (head post) by (by destruct post).
    rewrite (IH (length post) Hshort (last run) post eq_refl Hpend).
    by rewrite (last_or_nonempty _ post), app_assoc.
  - rewrite last_or_cons. cbn [app]. rewrite !findall_from_other by done.
    apply (IH (length pre)); [simpl; lia | done |].
    unfold ends_without in *. destruct pre as [| d pre]; [done |].
    by rewrite last_cons_cons in Hend.
Qed.

(* a run with no word character on either side is among the matches *)
Lemma findall_from_elem pre run post :
  run ≠ [] → Forall alpha run →
  ends_without re.is_word_char pre → starts_without re.is_word_char post →
  run ∈ re.findall_from None 0 (pre ++ run ++ post).
Proof.
  intros Hne Hrun Hpre Hpost.
  assert (∀ d, re.is_word_char d = false → str.isalpha_char d = false) as Hother.
  { intros d Hd. destruct (str.isalpha_char d) eqn:Ha; [| done].
    by rewrite (isalpha_is_word d Ha) in Hd. }
  rewrite findall_from_app, findall_from_run; [| done | done | |].
  - assert (re.is_word (last_or None pre) = false) as ->.
    { unfold last_or, ends_without in *. by destruct (last pre). }
    assert (re.is_word (head post) = false) as ->.
    { unfold starts_without in *. by destruct (head post). }
    simpl. apply elem_of_app. right. by left.
  - unfold starts_without in *. destruct (head post); [by apply Hother | done].
  - unfold ends_without in *. destruct (last pre); [by apply Hother | done].
Qed.

(* the matches are runs of letters *)
Lemma findall_from_alpha b skip text :
  Forall (λ run, run ≠ [] ∧ Forall alpha run) (re.findall_from b skip text).
Proof.
  revert b skip. induction text as [| c text IH]; intros b skip; [by destruct skip |].
  destruct skip as [| skip]; simpl; [| apply IH].
  destruct (re.match_here b (c :: text)) as [len |] eqn:Hmatch; [| apply IH].
  apply match_here_alpha in Hmatch as [Hlen Halpha].
  constructor; [| apply IH]. split; [| done]. by destruct len; [lia |].
Qed.

(** *** Lower case *)

Lemma isalpha_lower_char_eq c :
  str.isalpha_char (str.lower_char c) = str.isalpha_char c.
Proof. by destruct c as [[] [] [] [] [] [] [] []]. Qed.

Lemma is_word_lower_char c :
  re.is_word_char (str.lower_char c) = re.is_word_char c.
Proof. by destruct c as [[] [] [] [] [] [] [] []]. Qed.

Lemma is_word_lower b : re.is_word (str.lower_char <$> b) = re.is_word b.
Proof. destruct b; [apply is_word_lower_char | done]. Qed.

Lemma alpha_run_lower text :
  re.alpha_run (map str.lower_char text) = map str.lower_char (re.alpha_run text).
Proof.
  induction text as [| c text IH]; simpl; [done |].
  rewrite isalpha_lower_char_eq. destruct (str.isalpha_char c); [| done].
  simpl. by rewrite IH.
Qed.

Lemma close_match_lower len text :
  re.close_match len (map str.lower_char text) = re.close_match len text.
Proof.
  induction len as [| len IH]; simpl; [done |].
  change (map str.lower_char text) with (str.lower_char <$> text).
  rewrite !list_lookup_fmap. unfold re.boundary. rewrite !is_word_lower.
  by rewrite <- IH.
Qed.

Lemma match_here_lower b text :
  re.match_here (str.lower_char <$> b) (map str.lower_char text)
  = re.match_here b text.
Proof.
  unfold re.match_here. rewrite alpha_run_lower, length_map, close_match_lower.
  unfold re.boundary. rewrite is_word_lower.
  replace (head (map str.lower_char text)) with (str.lower_char <$> head text)
    by (by destruct text).
  by rewrite is_word_lower.
Qed.

(* the words of the lower-cased text are the lower-cased words of the text *)
Lemma findall_from_lower b skip text :
  re.findall_from (str.lower_char <$> b) skip (map str.lower_char text)
  = map (map str.lower_char) (re.findall_from b skip text).
Proof.
  revert b skip. induction text as [| c text IH]; intros b skip; [by destruct skip |].
  destruct skip as [| skip]; cbn [map re.findall_from].
  - change (str.lower_char c :: map str.lower_char text)
      with (map str.lower_char (c :: text)).
    rewrite match_here_lower.
    destruct (re.match_here b (c :: text)) as [len |].
    + cbn [map]. rewrite <- (IH (Some c)). f_equal.
      change (map str.lower_char (c :: text)) with (str.lower_char <$> c :: text).
      by rewrite fmap_take.
    + apply (IH (Some c)).
  - apply (IH (Some c)).
Qed.
End findall_scan.

(** ** encrypt_content: the words of the text and their mapping *)

Section content.
Implicit Types (s : HashMapper) (m : gmap string string)
  (text pre run post w k v : string).

Local Abbreviation alpha := (λ c, str.isalpha_char c = true).

Lemma lower_string_of l :
  str.lower (string_of_list_ascii l) = string_of_list_ascii (map str.lower_char l).
Proof. unfold str.lower, str.lift. by rewrite list_ascii_of_string_of_list_ascii. Qed.

Lemma findall_lower text :
  re.findall (str.lower text) = map str.lower (re.findall text).
Proof.
  unfold re.findall.
  change (str.lower text) with (str.lift (map str.lower_char) text).
  rewrite (lift_chars (map str.lower_char) text).
  rewrite (findall_from_lower None), !map_map.
  apply map_ext. intros l. by rewrite lower_string_of.
Qed.

Lemma findall_elem pre run post :
  alpha_word run →
  ends_without re.is_word_char (chars pre) →
  starts_without re.is_word_char (chars post) →
  run ∈ re.findall (pre +:+ run +:+ post).
Proof.
  intros [Hne Hrun] Hpre Hpost. unfold re.findall.
  apply list_elem_of_fmap. exists (chars run).
  split; [by rewrite string_of_chars |].
  fold (chars (pre +:+ run +:+ post)). rewrite !chars_app.
  by apply findall_from_elem.
Qed.

Lemma findall_alpha_word text w : w ∈ re.findall text → alpha_word w.
Proof.
  unfold re.findall. intros (l & -> & Hl)%list_elem_of_fmap.
  pose proof (findall_from_alpha None 0 (list_ascii_of_string text)) as Hall.
  rewrite Forall_forall in Hall. destruct (Hall l Hl) as [Hne Halpha].
  unfold alpha_word. by rewrite chars_string_of.
Qed.

Lemma strip_chars_alpha l : Forall alpha l → str.strip_chars l = l.
Proof.
  intros Hl.
  assert (∀ l', Forall alpha l' → str.lstrip_chars l' = l') as Hfixed.
  { intros l' Hl'. apply lstrip_chars_fixed. unfold starts_without.
    destruct l' as [| c l'']; [done |]. simpl. apply Forall_inv in Hl'.
    destruct (str.isspace_char c) eqn:Hc; [| done].
    by rewrite (isspace_other c Hc) in Hl'. }
  unfold str.strip_chars, str.rstrip_chars.
  rewrite (Hfixed l Hl), (Hfixed (rev l)); [apply rev_involutive |].
  by apply List.Forall_rev.
Qed.

Lemma strip_alpha_word w : alpha_word w → str.strip w = w.
Proof.
  intros [_ Hw]. unfold str.strip, str.lift. fold (chars w).
  by rewrite strip_chars_alpha, string_of_chars.
Qed.

Lemma alpha_word_lower w : alpha_word w → alpha_word (str.lower w).
Proof.
  intros [Hne Hw]. unfold alpha_word, chars, str.lower. rewrite lift_chars.
  fold (chars w). split; [by destruct (chars w) |].
  apply Forall_fmap. eapply Forall_impl; [done |]. apply isalpha_lower_char.
Qed.

(* the words that encrypt_content collects are in lower case *)
Lemma findall_lower_elem text w :
  w ∈ re.findall (str.lower text) → str.lower w = w ∧ alpha_word w.
Proof.
  intros Hw. split; [| by eapply findall_alpha_word].
  rewrite findall_lower in Hw.
  apply list_elem_of_fmap in Hw as (w0 & -> & _). apply lower_idemp.
Qed.

(** X18.  In [encrypt_content] (ASCII text, a table of ASCII words,
    capacity other than 1) the mapping is built
    and the text rewritten with it; for each run of letters of the text
    that has no word character on either side, the mapping has the entry
    [lower(run) -> v] exactly when [find_encrypted_word(run)] returns the
    word [v], not empty: every word of the text that has a substitute in
    the table gets it. *)
Theorem content_mapping_covers n ws pre run post :
  n ≠ 1 → Forall (λ w, str.isascii w = true) ws →
  str.isascii pre = true → str.isascii post = true → alpha_word run →
  ends_without re.is_word_char (chars pre) →
  starts_without re.is_word_char (chars post) →
  ∃ m,
    get_encryption_mapping (re.findall (str.lower (pre +:+ run +:+ post)))
      (insert_all ws (__init__ n)) = Return m ∧
    encrypt_content_text (insert_all ws (__init__ n)) (pre +:+ run +:+ post)
    = Return (encrypt_text_content (pre +:+ run +:+ post) m) ∧
    ∀ v, m !! str.lower run = Some v ↔
         find_encrypted_word run (insert_all ws (__init__ n)) = Return (Some v) ∧
         str.truthy v = true.
Proof.
  intros Hn _ _ _ Hrun Hpre Hpost.
  pose proof (wf_insert_all ws _ (wf_init n)) as Hwf.
  pose proof (table_size_insert_all ws _ (wf_init n)) as Hsize.
  set (s := insert_all ws (__init__ n)) in *. simpl in Hsize.
  set (text := pre +:+ run +:+ post).
  assert (∀ w, ∃ r, find_encrypted_word w s = Return r) as Hfind.
  { intros w. destruct (find_encrypted_word_Return w s) as (r & Hr & _);
      [done | by rewrite Hsize | eauto]. }
  destruct (mapping_loop_Return s
              (elements (list_to_set (re.findall (str.lower text)) : gset string)) ∅)
    as [m Hm]; [intros w _; apply Hfind |].
  exists m. split; [done |]. split.
  { unfold encrypt_content_text. fold text.
    unfold get_encryption_mapping. by rewrite Hm. }
  intros v. rewrite (get_encryption_mapping_lookup _ _ _ Hm).
  destruct (Hfind run) as [r Hr].
  assert (substitute s run = found_substitute r) as Hsub
    by (unfold substitute; by rewrite Hr).
  split.
  - intros (w & Hw & Hk & Hv). rewrite (substitute_lower s w run), Hsub in Hv by done.
    pose proof (found_substitute_Some _ _ Hv) as ->. simpl in Hv.
    rewrite Hr. by destruct (str.truthy v).
  - intros [Hv Htruthy]. exists (str.lower run).
    split; [| split; [apply lower_idemp |]].
    + rewrite findall_lower. apply list_elem_of_fmap_2. by apply findall_elem.
    + rewrite (substitute_lower s (str.lower run) run) by apply lower_idemp.
      rewrite Hsub. assert (r = Some v) as -> by congruence.
      simpl. by rewrite Htruthy.
Qed.

Lemma content_mapping_covers_witness :
  ∃ m,
    get_encryption_mapping (re.findall (str.lower ("The " +:+ "Cat" +:+ " sat.")))
      (insert_all ["cat"; "dog"; "bird"; "fish"; "fox"]%string (__init__ 5))
    = Return m.
Proof.
  destruct (content_mapping_covers 5 ["cat"; "dog"; "bird"; "fish"; "fox"]%string
              "The " "Cat" " sat.") as (m & Hm & _).
  - lia.
  - by repeat constructor.
  - reflexivity.
  - reflexivity.
  - split; [done | by repeat constructor].
  - reflexivity.
  - reflexivity.
  - exists m. exact Hm.
Defined.

(** X19.  Every key of the mapping that [encrypt_content] builds is a word
    of the lower-cased text, made of lower-case letters only, and its value
    is another word: the mapping never maps a word of the text to
    itself. *)
Theorem content_mapping_keys n ws text m k v :
  get_encryption_mapping (re.findall (str.lower text))
    (insert_all ws (__init__ n)) = Return m →
  m !! k = Some v →
  k ∈ re.findall (str.lower text) ∧ alpha_word k ∧ str.lower k = k ∧ k ≠ v.
Proof.
  intros Hm Hk.
  pose proof (wf_insert_all ws _ (wf_init n)) as Hwf.
  apply (get_encryption_mapping_lookup _ _ _ Hm) in Hk as (w & Hw & <- & Hsub).
  destruct (findall_lower_elem text w Hw) as [Hlower Halpha].
  rewrite Hlower. split; [done |]. split; [done |]. split; [done |].
  unfold substitute in Hsub.
  destruct (find_encrypted_word w _) as [r | e] eqn:Hfind; [| done].
  apply found_substitute_Some in Hsub as ->.
  apply find_encrypted_word_Some in Hfind as [Hv _]; [| done].
  rewrite Hlower, (strip_alpha_word w Halpha) in Hv. congruence.
Qed.

Lemma content_mapping_keys_witness :
  "cat"%string ∈ re.findall (str.lower "The Cat sat.").
Proof.
  apply (content_mapping_keys 5 ["cat"; "dog"; "bird"; "fish"; "fox"]%string
           "The Cat sat." {[ "cat"%string := "fish"%string ]} "cat" "fish").
  - by vm_compute.
  - by vm_compute.
Defined.
End content.

(** ** insert_words within the capacity, and the empty table *)

Section whole_runs.
Implicit Types (s : HashMapper) (w : string).

Lemma insert_words_all_return ws s :
  Forall (λ r, r = Return tt) (insert_outcomes (dictionary_words ws) s) →
  insert_words ws s = (Return tt, insert_all (dictionary_words ws) s).
Proof.
  revert s. induction ws as [| x ws IH]; intros s; simpl; [done |].
  destruct (str.truthy x && str.truthy (str.strip x)); [| apply IH].
  simpl. intros Hall. pose proof (Forall_inv Hall) as Hret. simpl in Hret.
  apply Forall_inv_tail in Hall.
  destruct (insert (str.lower (str.strip x)) s) as [r s'] eqn:Hins.
  simpl in *. subst r. by apply IH.
Qed.

(** X20.  For a list of entries of ASCII characters: while the number of
    distinct lower-cased, trimmed entries does not exceed the capacity (1 or more), [insert_words] on a fresh table
    returns, having inserted every entry that is not blank. *)
Theorem insert_words_fit n ws :
  1 ≤ n → Forall (λ w, str.isascii w = true) ws →
  (size (list_to_set (dictionary_words ws) : gset string) ≤ Z.to_nat n)%nat →
  insert_words ws (__init__ n)
  = (Return tt, insert_all (dictionary_words ws) (__init__ n)).
Proof.
  intros Hn _ Hfit. apply insert_words_all_return.
  apply insert_all_fit; [apply wf_init | done | |].
  - split; [by rewrite filled_slots_init | done].
  - simpl. by rewrite dom_empty_L, (left_id_L ∅ (∪)).
Qed.

Lemma insert_words_fit_witness :
  insert_words [" Cat"; "cat "; ""; "DOG"]%string (__init__ 2)
  = (Return tt,
     insert_all (dictionary_words [" Cat"; "cat "; ""; "DOG"]%string) (__init__ 2)).
Proof.
  apply insert_words_fit; [lia | by repeat constructor | by vm_compute].
Defined.

(** X21.  With a table in which nothing was inserted, of any capacity,
    [encrypt_content] gives the plain text back unchanged: the mapping is
    empty and no lookup computes a hash. *)
Theorem empty_table_content n text :
  get_encryption_mapping (re.findall (str.lower text)) (__init__ n) = Return ∅ ∧
  encrypt_content_text (__init__ n) text = Return text.
Proof.
  assert (∀ words m, mapping_loop (__init__ n) words m = Return m) as Hloop.
  { induction words as [| w words IH]; intros m; simpl; [done |].
    rewrite find_encrypted_word_absent by apply lookup_empty. cbn [bind].
    apply IH. }
  assert (get_encryption_mapping (re.findall (str.lower text)) (__init__ n)
          = Return ∅) as Hm by apply Hloop.
  split; [done |]. unfold encrypt_content_text. rewrite Hm. cbn [bind].
  f_equal. apply chars_inj. rewrite encrypt_text_content_chars.
  rewrite sub_from_id; [done |]. apply repl_chars_no_key.
  intros run _. apply lookup_empty.
Qed.
End whole_runs.

(** ** update_hash_settings *)

Section settings.
Implicit Types (l token : list ascii) (c : ascii) (t v text : string).

Local Abbreviation solid := (λ c, str.isspace_char c = false).

(* the tokens of split are not empty and have no blank *)
Lemma split_chars_tokens token l :
  Forall solid token →
  Forall (λ run : list ascii, run ≠ [] ∧ Forall solid run)
    (str.split_chars token l).
Proof.
  revert token. induction l as [| c l IH]; intros token Htoken; simpl.
  - destruct token; [done |]. constructor; [done | constructor].
  - destruct (str.isspace_char c) eqn:Hc.
    + destruct token as [| d token]; [by apply IH |].
      constructor; [done | by apply IH].
    + apply IH, Forall_app. split; [done | by repeat constructor].
Qed.

Lemma strip_chars_solid l : Forall solid l → str.strip_chars l = l.
Proof.
  intros Hl.
  assert (∀ l', Forall solid l' → str.lstrip_chars l' = l') as Hfixed.
  { intros l' Hl'. apply lstrip_chars_fixed. unfold starts_without.
    destruct l' as [| c l'']; [done |]. simpl. by apply Forall_inv in Hl'. }
  unfold str.strip_chars, str.rstrip_chars.
  rewrite (Hfixed l Hl), (Hfixed (rev l)); [apply rev_involutive |].
  by apply List.Forall_rev.
Qed.

Lemma split_token text t :
  t ∈ str.split text → str.truthy t = true ∧ str.strip t = t.
Proof.
  unfold str.split. intros (l & -> & Hl)%list_elem_of_fmap.
  pose proof (split_chars_tokens [] (list_ascii_of_string text)
                (List.Forall_nil _)) as Hall.
  rewrite Forall_forall in Hall. destruct (Hall l Hl) as [Hne Hsolid].
  split; [by destruct l |].
  unfold str.strip, str.lift.
  by rewrite list_ascii_of_string_of_list_ascii, strip_chars_solid.
Qed.

Lemma dictionary_words_tokens (ws : list string) :
  (∀ t, t ∈ ws → str.truthy t = true ∧ str.strip t = t) →
  dictionary_words ws = map str.lower ws.
Proof.
  induction ws as [| t ws IH]; intros Hws; simpl; [done |].
  destruct (Hws t) as [Ht Hstrip]; [by left |].
  rewrite Hstrip, Ht. simpl. f_equal. apply IH.
  intros t' Ht'. apply Hws. by right.
Qed.

(** X22.  For a dictionary text of ASCII characters, the table that
    [update_hash_settings] builds holds only
    lower-cased tokens of the dictionary text (a token is a maximal run of
    characters that are no blanks); and when the distinct lower-cased tokens
    do not exceed the capacity (1 or more), it holds every one of them. *)
Theorem settings_table n text :
  str.isascii text = true →
  (∀ j v, table (update_hash_settings n text) !! j = Some (Some v) →
          ∃ t, t ∈ str.split text ∧ v = str.lower t) ∧
  (1 ≤ n →
   (size (list_to_set (map str.lower (str.split text)) : gset string)
    ≤ Z.to_nat n)%nat →
   ∀ t, t ∈ str.split text →
        ∃ j, table (update_hash_settings n text) !! j
             = Some (Some (str.lower t))).
Proof.
  intros _. unfold update_hash_settings.
  pose proof (dictionary_words_tokens (str.split text) (split_token text)) as Hdict.
  split.
  - intros j v Hj.
    destruct (insert_words_calls (str.split text) (__init__ n))
      as (calls & Hpre & Hstate & _).
    rewrite Hstate in Hj.
    assert (is_Some (word_to_index (insert_all calls (__init__ n)) !! v)) as [i Hi].
    { apply stored_word_to_index; [apply wf_insert_all, wf_init | eauto]. }
    apply word_to_index_insert_all in Hi as [Hi | Hi]; [| | apply wf_init].
    { simpl in Hi. by rewrite lookup_empty in Hi. }
    assert (v ∈ dictionary_words (str.split text)) as Hv
      by (destruct Hpre as [rest ->]; apply elem_of_app; by left).
    rewrite Hdict in Hv. apply list_elem_of_fmap in Hv as (t & -> & Ht). eauto.
  - intros Hn Hfit t Ht.
    assert (Forall (λ r, r = Return tt)
              (insert_outcomes (dictionary_words (str.split text)) (__init__ n)))
      as Hall.
    { apply insert_all_fit; [apply wf_init | done | |].
      - split; [by rewrite filled_slots_init | done].
      - simpl. by rewrite dom_empty_L, (left_id_L ∅ (∪)), Hdict. }
    rewrite (insert_words_all_return _ _ Hall). simpl.
    apply stored_word_to_index; [apply wf_insert_all, wf_init |].
    apply inserted_stored; [apply wf_init |].
    assert (str.lower t ∈ dictionary_words (str.split text)) as Hin
      by (rewrite Hdict; by apply list_elem_of_fmap_2).
    apply list_elem_of_split in Hin as (before & after & Hsplit).
    exists before, after. split; [done |].
    rewrite Hsplit, insert_outcomes_app in Hall.
    apply Forall_app in Hall as [_ Hall]. simpl in Hall. by apply Forall_inv in Hall.
Qed.

Lemma settings_table_witness :
  ∃ j, table (update_hash_settings 5 " Cat dog  CAT bird") !! j
       = Some (Some (str.lower "CAT")).
Proof.
  apply (proj2 (settings_table 5 " Cat dog  CAT bird" eq_refl)).
  - lia.
  - vm_compute. lia.
  - apply (bool_decide_unpack _). by vm_compute.
Defined.
End settings.


Section cleaning.
Implicit Types (l line phrase : list ascii) (parts : list (list ascii)).

Local Abbreviation solid_chars := (filter (λ c, str.isspace_char c = false)).

Lemma solid_chars_blank c l :
  str.isspace_char c = true → solid_chars (c :: l) = solid_chars l.
Proof. intros Hc. apply filter_cons_False. by rewrite Hc. Qed.

Lemma solid_chars_lstrip l : solid_chars (str.lstrip_chars l) = solid_chars l.
Proof.
  induction l as [| c l IH]; [done |]. simpl.
  destruct (str.isspace_char c) eqn:Hc; [| done].
  by rewrite IH, solid_chars_blank.
Qed.

Lemma solid_chars_rev l : solid_chars (rev l) = rev (solid_chars l).
Proof. rewrite !rev_alt. apply filter_reverse. Qed.

Lemma solid_chars_strip l : solid_chars (str.strip_chars l) = solid_chars l.
Proof.
  unfold str.strip_chars, str.rstrip_chars.
  rewrite solid_chars_rev, solid_chars_lstrip, <- solid_chars_rev, rev_involutive.
  apply solid_chars_lstrip.
Qed.

Lemma islinebreak_isspace c :
  str.islinebreak_char c = true → str.isspace_char c = true.
Proof. unfold str.islinebreak_char, str.isspace_char. lia. Qed.

Lemma solid_chars_splitlines after_cr line l :
  solid_chars (concat (str.splitlines_chars after_cr line l))
  = solid_chars (line ++ l).
Proof.
  revert after_cr line. induction l as [| c l IH]; intros after_cr line.
  - simpl. rewrite app_nil_r. destruct line; [done |]. simpl. by rewrite app_nil_r.
  - cbn [str.splitlines_chars].
    destruct (after_cr && (str.ord c =? 10)) eqn:Hskip.
    + rewrite IH, !filter_app, solid_chars_blank; [done |].
      unfold str.isspace_char. lia.
    + destruct (str.islinebreak_char c) eqn:Hc.
      * cbn [concat]. rewrite filter_app, IH. cbn [app].
        rewrite (filter_app _ line), (solid_chars_blank c); [done |].
        by apply islinebreak_isspace.
      * by rewrite IH, <- app_assoc.
Qed.

Lemma solid_chars_split_spaces skip phrase l :
  (skip = true → ∀ c rest, l = c :: rest → str.isspace_char c = true) →
  solid_chars (concat (str.split_spaces_chars skip phrase l))
  = solid_chars (phrase ++ l).
Proof.
  revert skip phrase. induction l as [| c l IH]; intros skip phrase Hskip.
  - simpl. by rewrite app_nil_r.
  - cbn [str.split_spaces_chars]. destruct skip.
    + rewrite IH by done. rewrite !filter_app, solid_chars_blank; [done |].
      by apply (Hskip eq_refl c l).
    + destruct ((str.ord c =? 32)
                && match l with d :: _ => str.ord d =? 32 | [] => false end)
        eqn:Hsep.
      * cbn [concat]. rewrite filter_app, IH.
        -- cbn [app]. rewrite (filter_app _ phrase), (solid_chars_blank c); [done |].
           unfold str.isspace_char. lia.
        -- intros _ d rest ->. unfold str.isspace_char. lia.
      * rewrite IH by done. by rewrite <- app_assoc.
Qed.

Lemma solid_chars_join sep parts :
  solid_chars sep = [] →
  solid_chars (str.join_chars sep parts) = solid_chars (concat parts).
Proof.
  intros Hsep. induction parts as [| part parts IH]; [done |].
  cbn [str.join_chars concat]. destruct parts as [| next parts].
  - by rewrite app_nil_r.
  - by rewrite !filter_app, Hsep, IH.
Qed.

Lemma solid_chars_chunks parts :
  solid_chars (concat (filter (λ chunk, chunk ≠ []) parts))
  = solid_chars (concat parts).
Proof.
  induction parts as [| part parts IH]; [done |].
  destruct part as [| c part].
  - by rewrite filter_cons_False by (intros Hne; by apply Hne).
  - rewrite filter_cons_True by done. cbn [concat]. by rewrite !filter_app, IH.
Qed.

Lemma solid_chars_strip_all parts :
  solid_chars (concat (map str.strip_chars parts)) = solid_chars (concat parts).
Proof.
  induction parts as [| part parts IH]; [done |].
  cbn [map concat]. by rewrite !filter_app, solid_chars_strip, IH.
Qed.

(** X23 ([WebContentLoader.run], the cleaning of the page text): on ASCII
    text, cleaning touches blanks only.  The characters of the cleaned text that are not
    white space are those of the page text, in the same order. *)
Theorem clean_text_keeps_solid (plain_text : string) :
  str.isascii plain_text = true →
  solid_chars (chars (clean_text plain_text)) = solid_chars (chars plain_text).
Proof.
  intros _.
  unfold clean_text. rewrite chars_string_of. unfold clean_chars, chars.
  rewrite solid_chars_join by done. rewrite solid_chars_chunks.
  transitivity (solid_chars (concat
    (str.splitlines_chars false [] (list_ascii_of_string plain_text)))).
  - induction (str.splitlines_chars false [] (list_ascii_of_string plain_text))
      as [| line lines IH]; [done |].
    cbn [map flat_map concat]. rewrite concat_app, !filter_app, IH. f_equal.
    rewrite solid_chars_strip_all, solid_chars_split_spaces by done.
    apply solid_chars_strip.
  - by rewrite solid_chars_splitlines.
Qed.

Lemma clean_text_keeps_solid_witness :
  solid_chars (chars (clean_text ("  Hello   world " +:+ String "010"%char " ok ")))
  = solid_chars (chars ("  Hello   world " +:+ String "010"%char " ok ")).
Proof. apply clean_text_keeps_solid. reflexivity. Defined.

Local Abbreviation unbroken := (Forall (λ c, str.islinebreak_char c = false)).

Lemma splitlines_unbroken after_cr line l :
  unbroken line → Forall unbroken (str.splitlines_chars after_cr line l).
Proof.
  revert after_cr line. induction l as [| c l IH]; intros after_cr line Hline.
  - simpl. destruct line; [done | by constructor].
  - cbn [str.splitlines_chars].
    destruct (after_cr && (str.ord c =? 10)); [by apply IH |].
    destruct (str.islinebreak_char c) eqn:Hc.
    + constructor; [done | by apply IH].
    + apply IH, Forall_app. by split; [| constructor].
Qed.

Lemma split_spaces_Forall (P : ascii → Prop) skip phrase l :
  Forall P phrase → Forall P l →
  Forall (Forall P) (str.split_spaces_chars skip phrase l).
Proof.
  revert skip phrase. induction l as [| c l IH]; intros skip phrase Hphrase Hl.
  - by constructor.
  - apply Forall_cons in Hl as [Hc Hl]. cbn [str.split_spaces_chars].
    destruct skip; [by apply IH |].
    destruct ((str.ord c =? 32)
              && match l with d :: _ => str.ord d =? 32 | [] => false end).
    + constructor; [done | by apply IH].
    + apply IH; [| done]. apply Forall_app. by split; [| constructor].
Qed.

Lemma single_spaced_first l : single_spaced (take 1 l) = true.
Proof. destruct l as [| c l]; [done |]. simpl. by rewrite andb_false_r. Qed.

Lemma single_spaced_app p q :
  single_spaced (p ++ q) = true → single_spaced p = true ∧ single_spaced q = true.
Proof.
  induction p as [| c p IH]; [done |]. cbn [app single_spaced].
  intros [Hc Hrest]%andb_true_iff. destruct (IH Hrest) as [Hp Hq].
  split; [| done]. rewrite Hp, andb_true_r.
  destruct p as [| d p]; [| done]. by rewrite andb_false_r.
Qed.

Lemma single_spaced_glue p c q :
  single_spaced (p ++ [c]) = true → single_spaced (c :: q) = true →
  single_spaced (p ++ c :: q) = true.
Proof.
  intros Hp Hq. induction p as [| d p IH]; [done |].
  cbn [app single_spaced] in *. apply andb_true_iff in Hp as [Hd Hp].
  rewrite (IH Hp), andb_true_r. by destruct p.
Qed.

Lemma split_spaces_single skip phrase l :
  (skip = true → phrase = []) →
  (skip = false → single_spaced (phrase ++ take 1 l) = true) →
  Forall (λ part, single_spaced part = true)
    (str.split_spaces_chars skip phrase l).
Proof.
  revert skip phrase. induction l as [| c l IH]; intros skip phrase Hskip Hphrase.
  - constructor; [| done]. destruct skip.
    + by rewrite Hskip.
    + specialize (Hphrase eq_refl). by rewrite app_nil_r in Hphrase.
  - cbn [str.split_spaces_chars]. destruct skip.
    + rewrite Hskip by done. apply IH; [done |]. intros _. apply single_spaced_first.
    + specialize (Hphrase eq_refl). cbn [take] in Hphrase.
      destruct ((str.ord c =? 32)
                && match l with d :: _ => str.ord d =? 32 | [] => false end)
        eqn:Hsep.
      * constructor; [by apply single_spaced_app in Hphrase as [? _] |].
        by apply IH.
      * apply IH; [done |]. intros _. rewrite <- app_assoc. cbn [app].
        apply single_spaced_glue; [done |].
        destruct l as [| d l]; [exact (single_spaced_first [c]) |].
        simpl in Hsep |- *. by rewrite Hsep, andb_false_r.
Qed.

Lemma lstrip_chars_split l : ∃ blanks, l = blanks ++ str.lstrip_chars l.
Proof.
  induction l as [| c l [blanks IH]]; [by exists [] |]. simpl.
  destruct (str.isspace_char c); [| by exists []].
  exists (c :: blanks). simpl. by f_equal.
Qed.

Lemma strip_chars_split l :
  ∃ blanks blanks', l = blanks ++ str.strip_chars l ++ blanks'.
Proof.
  destruct (lstrip_chars_split l) as [blanks Hl].
  destruct (lstrip_chars_split (rev (str.lstrip_chars l))) as [blanks' Hr].
  exists blanks, (rev blanks'). unfold str.strip_chars, str.rstrip_chars.
  by rewrite <- rev_app_distr, <- Hr, rev_involutive.
Qed.

Lemma strip_chars_single l :
  single_spaced l = true → single_spaced (str.strip_chars l) = true.
Proof.
  destruct (strip_chars_split l) as (blanks & blanks' & Hl).
  rewrite Hl at 1. intros [_ Hrest]%single_spaced_app.
  by apply single_spaced_app in Hrest as [? _].
Qed.

(* the chunks that the cleaning joins are tidy *)
Lemma clean_chars_chunks l :
  ∃ chunks, clean_chars l = str.join_chars ["010"%char] chunks
            ∧ Forall tidy chunks.
Proof.
  eexists. split; [reflexivity |].
  apply Forall_forall. intros chunk [Hne Hin]%list_elem_of_filter.
  apply list_elem_of_In, in_flat_map in Hin as (line & Hline & Hchunk).
  apply in_map_iff in Hline as (raw & <- & Hraw).
  apply in_map_iff in Hchunk as (phrase & <- & Hphrase).
  assert (unbroken raw) as Hunbroken.
  { pose proof (splitlines_unbroken false [] l (List.Forall_nil _)) as Hall.
    rewrite Forall_forall in Hall. by apply Hall, list_elem_of_In. }
  split; [done |]. split; [| split].
  - apply strip_chars_Forall.
    pose proof (split_spaces_Forall _ false [] (str.strip_chars raw)
      (List.Forall_nil _) (strip_chars_Forall _ _ Hunbroken)) as Hall.
    rewrite Forall_forall in Hall. by apply Hall, list_elem_of_In.
  - apply strip_chars_idemp.
  - apply strip_chars_single.
    pose proof (split_spaces_single false [] (str.strip_chars raw)) as Hall.
    rewrite Forall_forall in Hall. apply Hall; [done | | by apply list_elem_of_In].
    intros _. apply single_spaced_first.
Qed.

Lemma splitlines_run line chunk rest :
  unbroken chunk →
  str.splitlines_chars false line (chunk ++ rest)
  = str.splitlines_chars false (line ++ chunk) rest.
Proof.
  intros Hchunk. revert line.
  induction Hchunk as [| c chunk Hc Hchunk IH]; intros line.
  - by rewrite app_nil_r.
  - cbn [app str.splitlines_chars andb]. by rewrite Hc, IH, <- app_assoc.
Qed.

(* the lines of joined tidy chunks are the chunks *)
Lemma splitlines_join chunks :
  Forall tidy chunks →
  str.splitlines_chars false [] (str.join_chars ["010"%char] chunks) = chunks.
Proof.
  induction 1 as [| chunk chunks (Hne & Hchunk & _) Hchunks IH]; [done |].
  cbn [str.join_chars]. destruct chunks as [| next chunks].
  - rewrite <- (app_nil_r chunk) at 1. rewrite splitlines_run by done.
    by destruct chunk.
  - rewrite splitlines_run by done. cbn [app str.splitlines_chars andb].
    change (str.islinebreak_char "010") with true. cbn iota.
    change (str.ord "010" =? 13) with false. by rewrite IH.
Qed.

Lemma split_spaces_fixed phrase l :
  single_spaced l = true →
  str.split_spaces_chars false phrase l = [phrase ++ l].
Proof.
  revert phrase. induction l as [| c l IH]; intros phrase Hl.
  - by rewrite app_nil_r.
  - cbn [str.split_spaces_chars single_spaced] in *.
    apply andb_true_iff in Hl as [Hc Hl]. apply negb_true_iff in Hc.
    by rewrite Hc, IH, <- app_assoc.
Qed.

(* cleaning leaves joined tidy chunks as they are *)
Lemma clean_chars_tidy chunks :
  Forall tidy chunks →
  clean_chars (str.join_chars ["010"%char] chunks)
  = str.join_chars ["010"%char] chunks.
Proof.
  intros Hchunks. unfold clean_chars. rewrite splitlines_join by done. f_equal.
  induction Hchunks as [| chunk chunks (Hne & _ & Hstrip & Hsingle) Hchunks IH];
    [done |].
  cbn [map flat_map]. rewrite Hstrip, split_spaces_fixed by done.
  cbn [map app]. rewrite Hstrip, filter_cons_True by done. by rewrite IH.
Qed.

(** X24 ([WebContentLoader.run], the cleaning of the page text): cleaning
    is idempotent, a text that was cleaned is left as it is by a second
    cleaning. *)
Theorem clean_text_idempotent (plain_text : string) :
  clean_text (clean_text plain_text) = clean_text plain_text.
Proof.
  unfold clean_text. rewrite list_ascii_of_string_of_list_ascii. f_equal.
  destruct (clean_chars_chunks (list_ascii_of_string plain_text))
    as (chunks & -> & Hchunks).
  by apply clean_chars_tidy.
Qed.

(** X25 ([WebContentLoader.run], the cleaning of the page text): every
    line of the cleaned text, as [splitlines] gives them, is tidy: it is
    not empty, [strip] removes nothing from it, and it has no two spaces in
    a row. *)
Theorem clean_text_lines_tidy (plain_text : string) :
  Forall tidy (str.splitlines_chars false [] (chars (clean_text plain_text))).
Proof.
  unfold clean_text. rewrite chars_string_of.
  destruct (clean_chars_chunks (list_ascii_of_string plain_text))
    as (chunks & -> & Hchunks).
  by rewrite splitlines_join.
Qed.

End cleaning.
